(** * xmlsig: canonical XML rewriting (canonical.go)

    A shallow embedding of [canonicalize], [writeNameSapce],
    [writeStartElement] and the [sort.Interface] implementation [canonAtt],
    followed by the properties of the rewriter.

    Go strings and byte slices are byte sequences: they are modelled by
    [string] (a list of 8-bit characters).  An [io.Writer] backed by a
    [bytes.Buffer] never fails, so a writer is modelled by the bytes written
    to it so far and [fmt.Fprintf] with [%s] verbs by concatenation. *)

From stdpp Require Import gmap strings list sorting.

(** ** Strings *)

(** The double quote character (byte 34) of the Go format strings. *)
Definition dq : string := String (Ascii.ascii_of_nat 34) EmptyString.

(** [strings.HasPrefix(s, prefix)] *)
Definition HasPrefix (s prefix : string) : bool := String.prefix prefix s.

(** [strings.HasSuffix(s, suffix)]:
    [len(s) >= len(suffix) && s[len(s)-len(suffix):] == suffix] *)
Definition HasSuffix (s suffix : string) : bool :=
  (String.length suffix <=? String.length s)%nat
  && String.eqb
       (String.substring (String.length s - String.length suffix)
                         (String.length suffix) s)
       suffix.

(** ** Data model (encoding/xml) *)

(** [type Name struct { Space, Local string }] *)
Record Name := mkName { Space : string; Local : string }.

(** [type Attr struct { Name Name; Value string }] *)
Record Attr := mkAttr { Attr_Name : Name; Value : string }.

(** [type StartElement struct { Name Name; Attr []Attr }] *)
Record StartElement := mkStart { Start_Name : Name; Start_Attr : list Attr }.

(** [xml.Token]: the six token kinds the decoder can hand out.  The
    [switch] of [canonicalize] has cases for the first three only. *)
Inductive Token :=
| TStartElement (t : StartElement)
| TEndElement (name : Name)
| TCharData (t : string)
| TComment (t : string)
| TProcInst (target inst : string)
| TDirective (t : string).

(** Go [error] values that can reach this file. *)
Inductive error :=
| io_EOF
| xml_SyntaxError (msg : string) (line : nat)
| xml_MarshalError (msg : string)
| errors_New (msg : string).

Global Instance Name_eq_dec : EqDecision Name.
Proof. solve_decision. Defined.
Global Instance Attr_eq_dec : EqDecision Attr.
Proof. solve_decision. Defined.

(** ** The namespace scope stack *)

(** Modelled from the spec: the type [stack] used by [canonicalize] and
    [writeNameSapce] is declared outside canonical.go.  It is an ordered
    sequence of namespace URIs; the most recently pushed entry is the head
    of the list. *)
Definition stack := list string.

(** Modelled from the spec: [Push] is missing from canonical.go; it appends
    [uri] (possibly empty) to the stack. *)
Definition Push (s : stack) (uri : string) : stack := uri :: s.

(** Modelled from the spec: [Top] is missing from canonical.go; it returns
    the most recently pushed entry, or a no-entries signal when the stack is
    empty.  The call site [currentNs, err := namespaces.Top()] fixes the
    shape of the result. *)
Definition Top (s : stack) : string * option error :=
  match s with
  | [] => (EmptyString, Some (errors_New "empty stack"))
  | uri :: _ => (uri, None)
  end.

(** Modelled from the spec: [Pop] is missing from canonical.go; it removes
    the most recently pushed entry, and on an empty stack it signals an
    error, returned to the caller like the one of [Top], and leaves the
    stack empty. *)
Definition Pop (s : stack) : stack * (string * option error) :=
  match s with
  | [] => ([], (EmptyString, Some (errors_New "empty stack")))
  | uri :: s' => (s', (uri, None))
  end.

(** ** canonAtt: sort.Interface over a slice of attributes *)

(** The body of [Less] once [iName := att[i].Name] and
    [jName := att[j].Name] have been read. *)
Definition Less_names (iName jName : Name) : bool :=
  (* xmlns without prefix goes first *)
  if String.eqb (Local iName) "xmlns" then true
  else if String.eqb (Local jName) "xmlns" then false
  (* namespace declarations go next sorted by prefix *)
  else if String.eqb (Space iName) "xmlns" then
    if negb (String.eqb (Space jName) "xmlns") then true
    else String.ltb (Local iName) (Local jName)
  else if String.eqb (Space jName) "xmlns" then false
  (* Lastly sort by attribute name namespace first *)
  else if negb (String.eqb (Space iName) (Space jName)) then
    String.ltb (Space iName) (Space jName)
  else String.ltb (Local iName) (Local jName).

(** What [Less(i, j)] answers when [att[i] = a] and [att[j] = b]. *)
Definition Less_attr (a b : Attr) : bool :=
  Less_names (Attr_Name a) (Attr_Name b).

(** [sort.Interface].  An index out of range makes Go panic: [None]. *)
Class Interface (T : Type) := {
  Len : T → nat;
  Less : T → nat → nat → option bool;
  Swap : T → nat → nat → option T
}.

(** [type canonAtt []xml.Attr] with its three methods. *)
Definition canonAtt := list Attr.

Definition canonAtt_Len (att : canonAtt) : nat := length att.

Definition canonAtt_Swap (att : canonAtt) (i j : nat) : option canonAtt :=
  ai ← att !! i;
  aj ← att !! j;
  Some (<[j := ai]> (<[i := aj]> att)).

Definition canonAtt_Less (att : canonAtt) (i j : nat) : option bool :=
  ai ← att !! i;
  aj ← att !! j;
  Some (Less_names (Attr_Name ai) (Attr_Name aj)).

Global Instance canonAtt_Interface : Interface canonAtt :=
  {| Len := canonAtt_Len; Less := canonAtt_Less; Swap := canonAtt_Swap |}.

(** ** sort.Sort *)

(** [sort.Sort] belongs to Go's standard library.  The rewriter relies on
    its documented contract only: the result is a rearrangement of the
    input, and it is in ascending order provided [Less] is a transitive
    ordering (the two conditions of the documentation of [sort.Interface])
    that never puts two elements of the slice before each other. *)
Section sort_contract.
Context {A : Type} (less : A → A → bool).

Definition transitive_ordering : Prop :=
  (∀ a b c, less a b = true → less b c = true → less a c = true) ∧
  (∀ a b c, less a b = false → less b c = false → less a c = false).

(** No two elements at different positions are each before the other. *)
Definition asymmetric_on (l : list A) : Prop :=
  ForallOrdPairs (λ a b, less a b && less b a = false) l.

(** No element is before one that precedes it in the list. *)
Definition ascending (l : list A) : Prop :=
  StronglySorted (λ a b, less b a = false) l.

Record sort_contract (srt : list A → list A) : Prop := {
  sort_permutation : ∀ l, srt l ≡ₚ l;
  sort_ascending :
    ∀ l, transitive_ordering → asymmetric_on l → ascending (srt l)
}.
End sort_contract.

(** [sort.Sort(canonAtt(attrs))], seen as a function from the slice before
    the call to the slice after it. *)
Class Sorter := {
  sort_Sort : list Attr → list Attr;
  sort_Sort_contract : sort_contract Less_attr sort_Sort
}.

(** Go's [insertionSort(data, 0, data.Len())], which is what [sort.Sort]
    executes on a short slice; written over [sort.Interface] as in package
    sort:
    [for i := 1; i < n; i++ {
       for j := i; j > 0 && data.Less(j, j-1); j-- { data.Swap(j, j-1) } }] *)
Section insertion_sort.
Context {T : Type} `{Interface T}.

Fixpoint sift (data : T) (j : nat) : option T :=
  match j with
  | 0 => Some data
  | S j' =>
      b ← Less data j j';
      if b : bool then data' ← Swap data j j'; sift data' j' else Some data
  end.

Definition insertionSort (data : T) : option T :=
  foldl (λ acc i, data' ← acc; sift data' i) (Some data)
        (seq 1 (Len data - 1)).
End insertion_sort.

(** ** The rewriter *)

Section rewriter.
Context `{Sorter}.

(** [func writeNameSapce(namespaces *stack, writer io.Writer,
    start xml.StartElement)] *)
Definition writeNameSapce (namespaces : stack) (writer : string)
    (start : StartElement) : stack * string :=
  let '(currentNs, err) := Top namespaces in
  let namespace := Space (Start_Name start) in
  let writer :=
    match err with
    | Some _ =>
        (* No namespaces yet declare ours *)
        if HasPrefix namespace "http"
        then writer +:+ " " +:+ "xmlns" +:+ "=" +:+ dq +:+ namespace +:+ dq
        else writer
    | None =>
        (* Different namespace declare ours *)
        if negb (String.eqb currentNs namespace) then
          if HasPrefix namespace "http"
          then writer +:+ " " +:+ "xmlns" +:+ "=" +:+ dq +:+ namespace +:+ dq
          else writer
        else writer
    end in
  (Push namespaces namespace, writer).

(** One iteration of [for _, att := range start.Attr] in
    [writeStartElement]; the state is the prefix map and the writer. *)
Definition writeAttr (acc : gmap string string * string) (att : Attr)
    : gmap string string * string :=
  let '(nsmap, writer) := acc in
  let name := Attr_Name att in
  (* Skip xmlns declarations they're handled above *)
  if String.eqb "xmlns" (Local name) then (nsmap, writer)
  (* is this a declaration for an attribute namespace *)
  else if String.eqb "xmlns" (Space name) then
    (<[Value att := Local name]> nsmap,
     writer +:+ " xmlns:" +:+ Local name +:+ "=" +:+ dq +:+ Value att +:+ dq)
  (* is attribute namespaced? *)
  else if String.eqb (Space name) EmptyString then
    (nsmap, writer +:+ " " +:+ Local name +:+ "=" +:+ dq +:+ Value att +:+ dq)
  else
    (nsmap,
     writer +:+ " " +:+ default EmptyString (nsmap !! Space name) +:+ ":"
            +:+ Local name +:+ "=" +:+ dq +:+ Value att +:+ dq).

(** [func writeStartElement(writer io.Writer, start xml.StartElement,
    namespaces *stack)] *)
Definition writeStartElement (writer : string) (start : StartElement)
    (namespaces : stack) : string * stack :=
  let writer :=
    if negb (HasPrefix (Space (Start_Name start)) "http")
    then writer +:+ "<" +:+ Space (Start_Name start) +:+ ":"
                +:+ Local (Start_Name start)
    else writer +:+ "<" +:+ Local (Start_Name start) in
  let start := mkStart (Start_Name start) (sort_Sort (Start_Attr start)) in
  let '(namespaces, writer) := writeNameSapce namespaces writer start in
  let '(_, writer) := foldl writeAttr (∅, writer) (Start_Attr start) in
  (writer +:+ ">", namespaces).

(** The identifier test of the first element:
    [localName == "ID" || localName == "Id" ||
     strings.HasSuffix(localName, "Id")] *)
Definition isIdName (localName : string) : bool :=
  String.eqb localName "ID" || String.eqb localName "Id"
  || HasSuffix localName "Id".

(** One iteration of [for i := range t.Attr] over the first element. *)
Definition scanId (id : string) (att : Attr) : string :=
  if isIdName (Local (Attr_Name att)) then Value att else id.

(** The variables of [canonicalize] that live across loop iterations. *)
Record state := mkState {
  out : string;
  namespaces : stack;
  firstElem : bool;
  id : string
}.

Definition initial : state := mkState EmptyString [] true EmptyString.

(** The [switch t := token.(type)] of the loop body. *)
Definition step (st : state) (token : Token) : state :=
  match token with
  | TStartElement t =>
      (* Check the first element for an ID to include in the reference *)
      let '(firstElem', id') :=
        if firstElem st
        then (false, foldl scanId (id st) (Start_Attr t))
        else (firstElem st, id st) in
      let '(writer, ns) := writeStartElement (out st) t (namespaces st) in
      mkState writer ns firstElem' id'
  | TEndElement name =>
      let '(ns, _) := Pop (namespaces st) in
      let writer :=
        if negb (HasPrefix (Space name) "http")
        then out st +:+ "</" +:+ Space name +:+ ":" +:+ Local name +:+ ">"
        else out st +:+ "</" +:+ Local name +:+ ">" in
      mkState writer ns (firstElem st) (id st)
  | TCharData t => mkState (out st +:+ t) (namespaces st) (firstElem st) (id st)
  | _ => st
  end.

(** The [for] loop.  [pulls] lists what the successive calls of
    [decoder.Token()] return: a token, or an error.  Once the bytes are
    consumed the decoder answers [io.EOF], so the end of the list stands
    for it. *)
Fixpoint loop (pulls : list (Token + error)) (st : state) : state :=
  match pulls with
  | [] => st
  | inr _ :: _ => st
  | inl token :: pulls' => loop pulls' (step st token)
  end.

(** The loop over a stream without fault: the tokens in turn. *)
Definition rewriteTokens (tokens : list Token) : state :=
  foldl step initial tokens.

(** [bytes.Buffer.Bytes] on a buffer that was never written to returns
    the nil slice ([None]). *)
Definition Buffer_Bytes (buf : string) : option string :=
  match buf with
  | EmptyString => None
  | _ => Some buf
  end.

(** [encoder.Encode] followed by [encoder.Flush], and the token stream
    [xml.NewDecoder] produces from the bytes, are external. *)
Context {Data : Type}.
Variable Encode : Data → string * option error.
Variable Decode : string → list (Token + error).

(** [func canonicalize(data interface{}) ([]byte, string, error)] *)
Definition canonicalize (data : Data) : option string * string * option error :=
  let '(buffer, err) := Encode data in
  match err with
  | Some e => (None, EmptyString, Some e)
  | None =>
      let st := loop (Decode buffer) initial in
      (Buffer_Bytes (out st), id st, None)
  end.
End rewriter.

(** ** Insertion sort on lists *)

(** The inner loop of [insertionSort] seen on lists: [ins x rp] moves [x]
    leftwards into the prefix whose elements, from right to left, are [rp];
    [isort] is the outer loop. *)
Section ins.
Context {A : Type} (less : A → A → bool).

Fixpoint ins (x : A) (rp : list A) : list A :=
  match rp with
  | [] => [x]
  | y :: rp' => if less x y then y :: ins x rp' else x :: rp
  end.

Definition isort (l : list A) : list A :=
  reverse (foldl (λ rp x, ins x rp) [] l).
End ins.

(** [sort.Sort(canonAtt(l))] on a short slice; a panic of [Less] or [Swap]
    would leave the slice as it is (there is none, see
    [insertionSort_canonAtt]). *)
Definition sort_insertion (l : list Attr) : list Attr :=
  default l (insertionSort (l : canonAtt)).

(** ** The canonical attribute order, as the specification words it *)

(** The three groups: 0 for a local name xmlns, 1 for a prefixed namespace
    declaration (namespace component xmlns), 2 for the remaining
    attributes. *)
Definition attr_rank (n : Name) : nat :=
  if String.eqb (Local n) "xmlns" then 0
  else if String.eqb (Space n) "xmlns" then 1
  else 2.

(** Group 0 before group 1 before group 2; inside group 1 by local name;
    inside group 2 by namespace URI, then by local name. *)
Definition canonical_lt (a b : Name) : bool :=
  match Nat.compare (attr_rank a) (attr_rank b) with
  | Lt => true
  | Gt => false
  | Eq =>
      match attr_rank a with
      | 0 => false
      | 1 => String.ltb (Local a) (Local b)
      | _ =>
          if String.eqb (Space a) (Space b)
          then String.ltb (Local a) (Local b)
          else String.ltb (Space a) (Space b)
      end
  end.

(** The attributes of a slice whose local name is xmlns. *)
Definition xmlns_attrs (l : list Attr) : list Attr :=
  filter (λ a, Local (Attr_Name a) = "xmlns") l.

(** The attributes of a slice that the attribute loop does not skip. *)
Definition written_attrs (l : list Attr) : list Attr :=
  filter (λ a, Local (Attr_Name a) ≠ "xmlns") l.

(** ** What a start tag consists of, as the specification words it *)

(** The element name as rendered in a tag: the bare local name when the
    namespace URI starts with http, the namespace as a literal prefix
    otherwise. *)
Definition tagName (name : Name) : string :=
  if HasPrefix (Space name) "http" then Local name
  else Space name +:+ ":" +:+ Local name.

(** A default declaration is due: the URI starts with http, and the stack is
    empty or its top differs from the URI. *)
Definition declaresNamespace (ns : stack) (uri : string) : bool :=
  HasPrefix uri "http"
  && match ns with
     | [] => true
     | top :: _ => negb (String.eqb top uri)
     end.

(** The bare default-namespace declaration of [uri]. *)
Definition xmlnsDecl (uri : string) : string :=
  " xmlns=" +:+ dq +:+ uri +:+ dq.

(** An attribute the loop records in the prefix map: a prefixed namespace
    declaration. *)
Definition isDeclaration (att : Attr) : Prop :=
  Local (Attr_Name att) ≠ "xmlns" ∧ Space (Attr_Name att) = "xmlns".

Global Instance isDeclaration_dec att : Decision (isDeclaration att).
Proof. unfold isDeclaration. apply _. Defined.

(** An attribute the loop writes with a prefix looked up in the map. *)
Definition isNamespaced (att : Attr) : Prop :=
  Local (Attr_Name att) ≠ "xmlns"
  ∧ Space (Attr_Name att) ≠ EmptyString
  ∧ Space (Attr_Name att) ≠ "xmlns".

(** What one attribute does to the prefix map. *)
Definition recordPrefix (m : gmap string string) (att : Attr)
    : gmap string string :=
  if String.eqb "xmlns" (Local (Attr_Name att)) then m
  else if String.eqb "xmlns" (Space (Attr_Name att))
       then <[Value att := Local (Attr_Name att)]> m
       else m.

(** The prefix map after the attributes [l] of one element: each prefixed
    declaration records its URI with its prefix, later ones winning. *)
Definition prefixMap (l : list Attr) : gmap string string :=
  foldl recordPrefix ∅ l.

(** The bytes the attribute loop writes for the attributes [l], starting
    from the prefix map [m]. *)
Definition attrsText (m : gmap string string) (l : list Attr) : string :=
  (foldl writeAttr (m, EmptyString) l).2.

(** The identifier the specification extracts from the attributes of the
    first element: the value of the last qualifying attribute. *)
Definition extractedId (attrs : list Attr) : string :=
  from_option Value EmptyString
    (last (filter (λ a, isIdName (Local (Attr_Name a)) = true) attrs)).

(** The first Start token of a stream. *)
Fixpoint firstStart (tokens : list Token) : option StartElement :=
  match tokens with
  | [] => None
  | TStartElement t :: _ => Some t
  | _ :: tokens' => firstStart tokens'
  end.

(** The tokens pulled before the first fault. *)
Fixpoint tokensBeforeFault (pulls : list (Token + error)) : list Token :=
  match pulls with
  | inl token :: pulls' => token :: tokensBeforeFault pulls'
  | _ => []
  end.

(** The names of the elements a token stream leaves open, innermost
    first, starting with the elements [opened]; [None] when an End token
    comes with no element open. *)
Fixpoint openElements (opened : list Name) (tokens : list Token)
    : option (list Name) :=
  match tokens with
  | [] => Some opened
  | TStartElement t :: rest => openElements (Start_Name t :: opened) rest
  | TEndElement _ :: rest =>
      match opened with
      | [] => None
      | _ :: opened' => openElements opened' rest
      end
  | _ :: rest => openElements opened rest
  end.


(** ** Rearranged token streams *)

(** Two tokens that differ at most in the arrangement of the attributes of
    a Start token. *)
Inductive same_token : Token → Token → Prop :=
| same_start name attrs attrs' :
    attrs ≡ₚ attrs' →
    same_token (TStartElement (mkStart name attrs))
               (TStartElement (mkStart name attrs'))
| same_other tok : same_token tok tok.

(** The attributes of a token have pairwise distinct names, and at most one
    of them has the local name xmlns. *)
Definition well_named (tok : Token) : Prop :=
  match tok with
  | TStartElement t =>
      NoDup (Attr_Name <$> Start_Attr t) ∧ length (xmlns_attrs (Start_Attr t)) ≤ 1
  | _ => True
  end.

(** ** Index exchange, nesting and plain text *)

(** The index permutation that [Swap(i, j)] applies. *)
Definition swapIndex (i j k : nat) : nat :=
  if decide (k = i) then j else if decide (k = j) then i else k.

(** A token stream in which every Start token has its End token, with
    well-nested streams in between and after; the names of the End tokens
    are not compared with those of the Start tokens, as in the loop. *)
Inductive wellNested : list Token → Prop :=
| wellNested_nil : wellNested []
| wellNested_text t rest :
    wellNested rest → wellNested (TCharData t :: rest)
| wellNested_comment t rest :
    wellNested rest → wellNested (TComment t :: rest)
| wellNested_procinst target inst rest :
    wellNested rest → wellNested (TProcInst target inst :: rest)
| wellNested_directive t rest :
    wellNested rest → wellNested (TDirective t :: rest)
| wellNested_element t inner name rest :
    wellNested inner → wellNested rest →
    wellNested (TStartElement t :: inner ++ TEndElement name :: rest).

(** Every Start token of the stream is met with an element open: [depth]
    is the number of open elements, an End token closing one. *)
Fixpoint openAtStarts (depth : nat) (tokens : list Token) : bool :=
  match tokens with
  | [] => true
  | TStartElement _ :: rest => (0 <? depth) && openAtStarts (S depth) rest
  | TEndElement _ :: rest => openAtStarts (pred depth) rest
  | _ :: rest => openAtStarts depth rest
  end.

(** The Start tokens of the stream all have the namespace [uri]. *)
Definition startsIn (uri : string) (tokens : list Token) : Prop :=
  Forall (λ tok, match tok with
                 | TStartElement t => Space (Start_Name t) = uri
                 | _ => True
                 end) tokens.

Section plain_text.
Context `{Sorter}.

(** What the loop writes for a token when [writeNameSapce] writes no
    declaration. *)
Definition plainText (tok : Token) : string :=
  match tok with
  | TStartElement t =>
      "<" +:+ tagName (Start_Name t)
          +:+ attrsText ∅ (sort_Sort (Start_Attr t)) +:+ ">"
  | TEndElement name => "</" +:+ tagName name +:+ ">"
  | TCharData t => t
  | _ => EmptyString
  end.

Definition plainTexts (tokens : list Token) : string :=
  foldr (λ tok s, plainText tok +:+ s) EmptyString tokens.

End plain_text.

(** A token for which the loop writes no byte. *)
Definition writesNothing (tok : Token) : Prop :=
  match tok with
  | TStartElement _ | TEndElement _ => False
  | TCharData t => t = EmptyString
  | _ => True
  end.

(** ** Concrete inputs *)

(** [xmlns="http://a"] and [xmlns:xmlns="http://b"] as the decoder hands
    them out: two attributes with the local name xmlns. *)
Definition attr_default_decl : Attr :=
  mkAttr (mkName EmptyString "xmlns") "http://a".
Definition attr_xmlns_xmlns : Attr :=
  mkAttr (mkName "xmlns" "xmlns") "http://b".

(** Two attributes with the same name [a] and different values. *)
Definition attr_a1 : Attr := mkAttr (mkName EmptyString "a") "1".
Definition attr_a2 : Attr := mkAttr (mkName EmptyString "a") "2".

(** [xmlns:p="u"], and the attributes [p:k="v"] and [p:xmlns="v"] in the
    namespace [u]. *)
Definition attr_decl_p : Attr := mkAttr (mkName "xmlns" "p") "u".
Definition attr_p_k : Attr := mkAttr (mkName "u" "k") "v".
Definition attr_p_xmlns : Attr := mkAttr (mkName "u" "xmlns") "v".


(** A marshaller that fails. *)
Definition encode_fails (_ : unit) : string * option error :=
  (EmptyString, Some (xml_MarshalError "unsupported type")).

(** A marshaller and a decoder for [<a>t] cut short by a syntax error. *)
Definition encode_cut (_ : unit) : string * option error := ("<a>t<", None).
Definition decode_cut (_ : string) : list (Token + error) :=
  [inl (TStartElement (mkStart (mkName EmptyString "a") []));
   inl (TCharData "t");
   inr (xml_SyntaxError "unexpected EOF" 1)].

(** [xmlns:q="u"]: a second prefix for the namespace [u]. *)
Definition attr_decl_q : Attr := mkAttr (mkName "xmlns" "q") "u".

(** A marshaller and a decoder for a lone comment. *)
Definition encode_comment (_ : unit) : string * option error :=
  ("<!--c-->", None).
Definition decode_comment (_ : string) : list (Token + error) :=
  [inl (TComment "c")].

(** * Properties *)

(** ** Insertion sort meets the contract of sort.Sort *)

Section ins_facts.
Context {A : Type} (less : A → A → bool).

Lemma ins_length x rp : length (ins less x rp) = S (length rp).
Proof.
  induction rp as [|y rp IH]; simpl; [done|].
  destruct (less x y); simpl; auto.
Qed.

Lemma ins_perm x rp : ins less x rp ≡ₚ x :: rp.
Proof.
  induction rp as [|y rp IH]; simpl; [done|].
  destruct (less x y); [|done].
  rewrite IH. apply Permutation_swap.
Qed.

Lemma foldl_ins_perm l : foldl (λ rp x, ins less x rp) [] l ≡ₚ l.
Proof.
  induction l as [|x l IH] using rev_ind; [done|].
  rewrite foldl_snoc, ins_perm, IH. by rewrite Permutation_app_comm.
Qed.

Lemma isort_perm l : isort less l ≡ₚ l.
Proof. unfold isort. by rewrite reverse_Permutation, foldl_ins_perm. Qed.

Lemma ForallOrdPairs_snoc (R : A → A → Prop) l x :
  ForallOrdPairs R (l ++ [x]) → ForallOrdPairs R l ∧ Forall (λ y, R y x) l.
Proof.
  induction l as [|y l IH]; simpl.
  - intros _. split; constructor.
  - inversion_clear 1 as [|? ? Hy Hl]. destruct (IH Hl) as [IH1 IH2].
    apply Forall_app in Hy as [Hy1 Hy2]. split.
    + by constructor.
    + constructor; [by inversion Hy2|done].
Qed.

Lemma StronglySorted_flip_reverse (R : A → A → Prop) l :
  StronglySorted (flip R) l → StronglySorted R (reverse l).
Proof.
  induction 1 as [|x l ? IH Hx]; [constructor|].
  rewrite reverse_cons. apply StronglySorted_app_2; [|done|repeat constructor].
  intros y x' Hy ->%list_elem_of_singleton.
  rewrite Forall_forall in Hx. apply Hx. by apply elem_of_reverse.
Qed.

Hypothesis less_order : transitive_ordering less.

Lemma ins_sorted x rp :
  StronglySorted (λ a b, less a b = false) rp →
  Forall (λ y, less y x && less x y = false) rp →
  StronglySorted (λ a b, less a b = false) (ins less x rp).
Proof.
  destruct less_order as [_ Hneg].
  induction 1 as [|y rp Hrp IH Hy]; intros Hx; simpl.
  - repeat constructor.
  - inversion_clear Hx as [|? ? Hxy Hxrp].
    destruct (less x y) eqn:Hlt.
    + constructor; [by apply IH|].
      rewrite ins_perm. constructor; [|done].
      by rewrite andb_true_r in Hxy.
    + constructor; [by constructor|].
      constructor; [done|].
      eapply Forall_impl; [exact Hy|]. simpl. eauto.
Qed.

Lemma isort_ascending l : asymmetric_on less l → ascending less (isort less l).
Proof.
  unfold isort, ascending, asymmetric_on. intros Hl.
  apply StronglySorted_flip_reverse. unfold flip.
  induction l as [|x l IH] using rev_ind; [constructor|].
  apply ForallOrdPairs_snoc in Hl as [Hl Hx].
  rewrite foldl_snoc. apply ins_sorted; [by apply IH|].
  by rewrite foldl_ins_perm.
Qed.
End ins_facts.

(** ** The index-based insertion sort is [isort] *)

Lemma swap_adjacent {A} (p : list A) y x rest :
  <[length p := x]> (<[S (length p) := y]> (p ++ y :: x :: rest))
  = p ++ x :: y :: rest.
Proof.
  rewrite !insert_app_r_alt by lia.
  replace (S (length p) - length p) with 1 by lia.
  by rewrite Nat.sub_diag.
Qed.

Lemma sift_canonAtt (p : list Attr) x rest :
  sift ((p ++ x :: rest) : canonAtt) (length p)
  = Some (reverse (ins Less_attr x (reverse p)) ++ rest).
Proof.
  revert rest. induction p as [|y p IH] using rev_ind; intros rest; [done|].
  rewrite length_app, Nat.add_1_r, <- (assoc_L (++)). simpl.
  assert (Hy : (p ++ y :: x :: rest) !! length p = Some y)
    by by apply list_lookup_middle.
  assert (Hx : (p ++ y :: x :: rest) !! S (length p) = Some x).
  { rewrite (cons_middle y p), (assoc_L (++)).
    apply list_lookup_middle. rewrite length_app. simpl. lia. }
  unfold canonAtt_Less, canonAtt_Swap, canonAtt in *. rewrite Hx, Hy. simpl.
  rewrite reverse_app. simpl. fold (Less_attr x y).
  destruct (Less_attr x y).
  - rewrite swap_adjacent, IH, reverse_cons, <- (assoc_L (++)). done.
  - by rewrite !reverse_cons, reverse_involutive, <- !(assoc_L (++)).
Qed.

Lemma insertionSort_prefix (l : list Attr) k :
  k < length l →
  foldl (λ acc i, data' ← acc; sift (data' : canonAtt) i) (Some l) (seq 1 k)
  = Some (isort Less_attr (take (S k) l) ++ drop (S k) l).
Proof.
  induction k as [|k IH]; intros Hk.
  - destruct l as [|x l]; [simpl in Hk; lia|]. simpl. by rewrite drop_0.
  - rewrite seq_S, foldl_snoc, IH by lia.
    cbv beta iota delta [mbind option_bind]. change (1 + k) with (S k).
    destruct (lookup_lt_is_Some_2 l (S k)) as [x Hx]; [lia|].
    rewrite (drop_S l x (S k)), (take_S_r l (S k) x) by done.
    set (p := isort Less_attr (take (S k) l)).
    assert (Hp : length p = S k).
    { unfold p, isort. rewrite length_reverse.
      rewrite (Permutation_length (foldl_ins_perm _ _)).
      rewrite length_take. lia. }
    pose proof (sift_canonAtt p x (drop (S (S k)) l)) as Hs.
    rewrite Hp in Hs. rewrite Hs. f_equal. f_equal.
    unfold isort. rewrite foldl_snoc. f_equal. f_equal.
    unfold p, isort. by rewrite reverse_involutive.
Qed.

Lemma insertionSort_canonAtt (l : list Attr) :
  insertionSort (l : canonAtt) = Some (isort Less_attr l).
Proof.
  unfold insertionSort. simpl. unfold canonAtt_Len.
  destruct l as [|x l]; [done|].
  replace (length (x :: l) - 1) with (length l) by (simpl; lia).
  rewrite insertionSort_prefix by (simpl; lia).
  change (S (length l)) with (length (x :: l)).
  by rewrite take_ge, drop_ge, app_nil_r by lia.
Qed.

Lemma sort_insertion_isort l : sort_insertion l = isort Less_attr l.
Proof. unfold sort_insertion. by rewrite insertionSort_canonAtt. Qed.

Lemma sort_insertion_contract : sort_contract Less_attr sort_insertion.
Proof.
  split.
  - intros l. rewrite sort_insertion_isort. apply isort_perm.
  - intros l Hord Hl. rewrite sort_insertion_isort. by apply isort_ascending.
Qed.

(** Insertion sort as an implementation of [sort.Sort] on attributes. *)
Global Instance insertion_Sorter : Sorter :=
  {| sort_Sort := sort_insertion; sort_Sort_contract := sort_insertion_contract |}.

(** ** Facts about strings *)

Lemma append_cons a (s t : string) : String a s +:+ t = String a (s +:+ t).
Proof. reflexivity. Qed.

Lemma append_nil_r (s : string) : s +:+ EmptyString = s.
Proof. induction s as [|a s IH]; [done|]. by rewrite append_cons, IH. Qed.

Lemma append_assoc (s t u : string) : (s +:+ t) +:+ u = s +:+ t +:+ u.
Proof. induction s as [|a s IH]; [done|]. by rewrite !append_cons, IH. Qed.

Lemma append_length (s t : string) :
  String.length (s +:+ t) = String.length s + String.length t.
Proof. induction s as [|a s IH]; [done|]. rewrite append_cons. simpl. by rewrite IH. Qed.

Lemma substring_all (s : string) : String.substring 0 (String.length s) s = s.
Proof. induction s as [|a s IH]; [done|]. simpl. by rewrite IH. Qed.

Lemma substring_append_r (p s : string) m :
  String.substring (String.length p) m (p +:+ s) = String.substring 0 m s.
Proof. induction p as [|a p IH]; [done|]. rewrite append_cons. simpl. apply IH. Qed.

Lemma substring_split (s : string) n :
  n ≤ String.length s →
  s = String.substring 0 n s +:+ String.substring n (String.length s - n) s.
Proof.
  revert n. induction s as [|a s IH]; intros [|n] Hn; simpl in *; try lia; try done.
  - by rewrite substring_all.
  - rewrite append_cons. f_equal. apply IH. lia.
Qed.

(** [strings.HasSuffix]: the string ends with the suffix. *)
Lemma HasSuffix_spec (s suffix : string) :
  HasSuffix s suffix = true ↔ ∃ p, s = p +:+ suffix.
Proof.
  unfold HasSuffix. rewrite andb_true_iff, Nat.leb_le, String.eqb_eq. split.
  - intros [Hlen Hsub]. exists (String.substring 0 (String.length s - String.length suffix) s).
    pose proof (substring_split s (String.length s - String.length suffix)) as Hs.
    replace (String.length s - (String.length s - String.length suffix))
      with (String.length suffix) in Hs by lia.
    rewrite Hsub in Hs. apply Hs. lia.
  - intros [p ->]. rewrite append_length. split; [lia|].
    replace (String.length p + String.length suffix - String.length suffix)
      with (String.length p) by lia.
    by rewrite substring_append_r, substring_all.
Qed.

(** [strings.HasPrefix]: the string starts with the prefix. *)
Lemma HasPrefix_spec (s prefix : string) :
  HasPrefix s prefix = true ↔ ∃ r, s = prefix +:+ r.
Proof.
  unfold HasPrefix. revert s. induction prefix as [|a p IH]; intros s; simpl.
  - destruct s; split; eauto.
  - destruct s as [|b s]; [split; [done|by intros [r ?]]|].
    simpl. case_match.
    + subst b. rewrite IH. split; intros [r Hr]; exists r.
      * by rewrite append_cons, Hr.
      * rewrite append_cons in Hr. by simplify_eq.
    + split; [done|]. intros [r Hr]. rewrite append_cons in Hr. by simplify_eq.
Qed.

(** ** Byte-wise string comparison *)

Lemma ltb_leb (a b : string) : String.ltb a b = negb (String.leb b a).
Proof.
  unfold String.ltb, String.leb. rewrite (String.compare_antisym a b).
  by destruct (String.compare b a).
Qed.

Lemma ltb_irrefl (a : string) : String.ltb a a = false.
Proof.
  rewrite ltb_leb. apply negb_false_iff, Is_true_true.
  apply (reflexivity (R := String.le)).
Qed.

Lemma ltb_trans (a b c : string) :
  String.ltb a b = true → String.ltb b c = true → String.ltb a c = true.
Proof.
  rewrite !ltb_leb, !negb_true_iff. intros Hba Hcb.
  destruct (String.leb c a) eqn:Hca; [|done].
  destruct (String.leb_total a b) as [Hab|?]; [|congruence].
  assert (String.le c b) as Hcb'; [|by apply Is_true_true in Hcb'; congruence].
  etrans; apply Is_true_true; eassumption.
Qed.

Lemma ltb_neg_trans (a b c : string) :
  String.ltb a b = false → String.ltb b c = false → String.ltb a c = false.
Proof.
  rewrite !ltb_leb, !negb_false_iff. intros Hba Hcb.
  apply Is_true_true. etrans; apply Is_true_true; eassumption.
Qed.

Lemma ltb_asym (a b : string) : String.ltb a b = true → String.ltb b a = false.
Proof.
  intros Hab. destruct (String.ltb b a) eqn:Hba; [|done].
  pose proof (ltb_trans _ _ _ Hab Hba) as Haa. by rewrite ltb_irrefl in Haa.
Qed.

Lemma ltb_total (a b : string) :
  a ≠ b → String.ltb a b = true ∨ String.ltb b a = true.
Proof.
  intros Hne. rewrite !ltb_leb.
  destruct (String.leb b a) eqn:Hba; [|by left].
  destruct (String.leb a b) eqn:Hab; [|by right].
  destruct Hne. by apply String.leb_antisym.
Qed.


Ltac ltb_saturate :=
  repeat match goal with
  | H1 : String.ltb ?x ?y = true, H2 : String.ltb ?y ?z = true |- _ =>
      lazymatch goal with
      | _ : String.ltb x z = true |- _ => fail
      | _ => pose proof (ltb_trans _ _ _ H1 H2)
      end
  | H1 : String.ltb ?x ?y = false, H2 : String.ltb ?y ?z = false |- _ =>
      lazymatch goal with
      | _ : String.ltb x z = false |- _ => fail
      | _ => pose proof (ltb_neg_trans _ _ _ H1 H2)
      end
  | H1 : String.ltb ?x ?y = true |- _ =>
      lazymatch goal with
      | _ : String.ltb y x = false |- _ => fail
      | _ => pose proof (ltb_asym _ _ H1)
      end
  end.

Ltac ltb_close :=
  intros; simplify_eq/=; ltb_saturate;
  try match goal with
  | H : String.ltb ?x ?x = true |- _ => rewrite ltb_irrefl in H
  | H1 : String.ltb ?x ?y = false, H2 : String.ltb ?y ?x = false,
    H3 : ?x ≠ ?y |- _ => destruct (ltb_total x y H3)
  | H1 : String.ltb ?x ?y = false, H2 : String.ltb ?y ?x = false,
    H3 : ?y ≠ ?x |- _ => destruct (ltb_total y x H3)
  end;
  try congruence; try apply ltb_irrefl; try done.

Ltac names_cases :=
  unfold Less_attr, Less_names;
  repeat match goal with
  | n : Name |- _ => destruct n as [? ?]
  | a : Attr |- _ => destruct a as [[? ?] ?]
  end; simpl;
  repeat match goal with
  | |- context [String.eqb ?x ?y] => destruct (String.eqb_spec x y); simpl
  end.

Lemma Less_names_trans a b c :
  Less_names a b = true → Less_names b c = true → Less_names a c = true.
Proof. names_cases; ltb_close. Qed.

Lemma Less_names_neg_trans a b c :
  Less_names a b = false → Less_names b c = false → Less_names a c = false.
Proof. names_cases; ltb_close. Qed.

Lemma Less_attr_transitive_ordering : transitive_ordering Less_attr.
Proof.
  split; intros a b c; unfold Less_attr;
    [apply Less_names_trans | apply Less_names_neg_trans].
Qed.

(** [Less] answers true whenever the first name is xmlns. *)
Lemma Less_names_xmlns a b : Local a = "xmlns" → Less_names a b = true.
Proof. unfold Less_names. intros ->. done. Qed.

(** [Less] puts two names before each other only if both have the local
    name xmlns. *)
Lemma Less_names_both a b :
  Less_names a b = true → Less_names b a = true →
  Local a = "xmlns" ∧ Local b = "xmlns".
Proof. names_cases; ltb_close. Qed.

(** ** The bytes of a start tag *)

Lemma writeAttr_append m w att :
  writeAttr (m, w) att
  = ((writeAttr (m, EmptyString) att).1, w +:+ (writeAttr (m, EmptyString) att).2).
Proof.
  unfold writeAttr. repeat case_match; simpl; by rewrite ?append_nil_r.
Qed.

Lemma foldl_writeAttr_append l m w :
  foldl writeAttr (m, w) l
  = ((foldl writeAttr (m, EmptyString) l).1, w +:+ attrsText m l).
Proof.
  unfold attrsText. revert m w.
  induction l as [|att l IH]; intros m w; cbn [foldl].
  - simpl. by rewrite append_nil_r.
  - rewrite (writeAttr_append m w).
    destruct (writeAttr (m, EmptyString) att) as [m' t] eqn:Hatt. cbn [fst snd].
    rewrite (IH m' (w +:+ t)), (IH m' t). cbn [fst snd]. by rewrite append_assoc.
Qed.

Lemma writeAttr_prefixMap_step m att :
  (writeAttr (m, EmptyString) att).1 = recordPrefix m att.
Proof. unfold writeAttr, recordPrefix. by repeat case_match. Qed.

Lemma writeNameSapce_text ns w start :
  writeNameSapce ns w start
  = (Push ns (Space (Start_Name start)),
     if declaresNamespace ns (Space (Start_Name start))
     then w +:+ xmlnsDecl (Space (Start_Name start)) else w).
Proof.
  unfold writeNameSapce, declaresNamespace, xmlnsDecl.
  destruct ns as [|top ns]; simpl.
  - by destruct (HasPrefix _ _).
  - destruct (String.eqb top _), (HasPrefix _ _); simpl; done.
Qed.

Section start_tag.
Context `{Sorter}.

Lemma writeStartElement_text w start ns :
  writeStartElement w start ns
  = (w +:+ "<" +:+ tagName (Start_Name start)
       +:+ (if declaresNamespace ns (Space (Start_Name start))
            then xmlnsDecl (Space (Start_Name start)) else EmptyString)
       +:+ attrsText ∅ (sort_Sort (Start_Attr start)) +:+ ">",
     Push ns (Space (Start_Name start))).
Proof.
  unfold writeStartElement. rewrite writeNameSapce_text. simpl.
  rewrite foldl_writeAttr_append. simpl. f_equal.
  unfold tagName.
  destruct (HasPrefix _ _), (declaresNamespace _ _); simpl;
    by rewrite ?append_assoc, ?append_nil_r.
Qed.
End start_tag.

(** ** The namespace declaration *)

Lemma declaresNamespace_spec ns uri :
  declaresNamespace ns uri = true
  ↔ (∃ r, uri = "http" +:+ r) ∧ (ns = [] ∨ ∃ top ns', ns = top :: ns' ∧ top ≠ uri).
Proof.
  unfold declaresNamespace. rewrite andb_true_iff, HasPrefix_spec.
  apply and_iff_compat_l. destruct ns as [|top ns].
  - split; auto.
  - rewrite negb_true_iff, String.eqb_neq. split.
    + intros Hne. right. eauto.
    + intros [?|(? & ? & ? & ?)]; by simplify_eq.
Qed.


Lemma writeAttr_no_default m att :
  (writeAttr (m, EmptyString) att).2 = EmptyString
  ∨ ∃ qname, qname ≠ "xmlns"
      ∧ (writeAttr (m, EmptyString) att).2
        = " " +:+ qname +:+ "=" +:+ dq +:+ Value att +:+ dq.
Proof.
  unfold writeAttr.
  destruct (String.eqb_spec "xmlns" (Local (Attr_Name att))) as [|Hl]; [by left|].
  right.
  destruct (String.eqb "xmlns" (Space (Attr_Name att))).
  - exists ("xmlns:" +:+ Local (Attr_Name att)). split; [|done].
    intros Heq. rewrite !append_cons in Heq. discriminate Heq.
  - destruct (String.eqb (Space (Attr_Name att)) EmptyString).
    + exists (Local (Attr_Name att)). split; [congruence|done].
    + exists (default EmptyString (m !! Space (Attr_Name att)) +:+ ":"
              +:+ Local (Attr_Name att)).
      split; [|cbn [snd]; by rewrite !append_assoc].
      intros Heq.
      assert (Hget : ∀ s t : string, s +:+ ":" +:+ t = "xmlns" → False).
      { clear. intros s t.
        do 6 (destruct s as [|? s]; [rewrite ?append_cons; intros Heq; simplify_eq|]).
        rewrite !append_cons. discriminate. }
      eauto.
Qed.

(** ** The comparator and the canonical order *)

Ltac order_cases :=
  unfold canonical_lt, attr_rank; names_cases.

Lemma Less_names_canonical a b :
  ¬ (Local a = "xmlns" ∧ Local b = "xmlns") →
  Less_names a b = canonical_lt a b.
Proof. order_cases; ltb_close; try tauto. Qed.

Lemma canonical_lt_Less a b : canonical_lt a b = true → Less_names a b = true.
Proof. order_cases; ltb_close. Qed.

Lemma canonical_lt_irrefl a : canonical_lt a a = false.
Proof. order_cases; ltb_close. Qed.

Lemma canonical_lt_trans a b c :
  canonical_lt a b = true → canonical_lt b c = true → canonical_lt a c = true.
Proof. order_cases; ltb_close. Qed.

Lemma canonical_lt_total a b :
  a ≠ b → ¬ (Local a = "xmlns" ∧ Local b = "xmlns") →
  canonical_lt a b = true ∨ canonical_lt b a = true.
Proof.
  order_cases; intros Hne Hx; try tauto; simplify_eq/=;
    try (by left); try (by right);
    apply ltb_total; congruence.
Qed.

(** Two attributes that [Less] does not order have the same name. *)
Lemma ltb_incomparable (a b : string) :
  String.ltb a b = false → String.ltb b a = false → a = b.
Proof.
  intros Hab Hba. destruct (decide (a = b)) as [|Hne]; [done|].
  destruct (ltb_total a b Hne); congruence.
Qed.

Lemma Less_names_incomparable a b :
  Less_names a b = false → Less_names b a = false → a = b.
Proof.
  names_cases; ltb_close; f_equal; auto using ltb_incomparable.
Qed.

Lemma xmlns_attrs_cons a l :
  xmlns_attrs (a :: l)
  = if decide (Local (Attr_Name a) = "xmlns") then a :: xmlns_attrs l
    else xmlns_attrs l.
Proof. unfold xmlns_attrs. by rewrite filter_cons. Qed.

(** [Less] is asymmetric on the positions of a slice exactly when at most
    one of its attributes has the local name xmlns. *)
Lemma asymmetric_on_xmlns l :
  asymmetric_on Less_attr l ↔ length (xmlns_attrs l) ≤ 1.
Proof.
  unfold asymmetric_on. induction l as [|a l IH].
  - split; [simpl; lia|constructor].
  - rewrite xmlns_attrs_cons. split.
    + inversion_clear 1 as [|? ? Ha Hl]. apply IH in Hl.
      case_decide as Hx; [|done].
      assert (xmlns_attrs l = []) as ->; [|simpl; lia].
      clear -Ha Hx. induction Ha as [|b l Hab _ IHa]; [done|].
      rewrite xmlns_attrs_cons, decide_False; [done|].
      intros Hb. unfold Less_attr in Hab.
      by rewrite !Less_names_xmlns in Hab.
    + intros Hlen. constructor.
      * apply Forall_forall. intros b Hb.
        destruct (Less_attr a b) eqn:Hab; [|done].
        destruct (Less_attr b a) eqn:Hba; [|done].
        destruct (Less_names_both _ _ Hab Hba) as [Hxa Hxb].
        rewrite decide_True in Hlen by done.
        assert (b ∈ xmlns_attrs l) as Hin by by apply list_elem_of_filter.
        destruct (xmlns_attrs l); [by apply elem_of_nil in Hin|simpl in Hlen; lia].
      * apply IH. case_decide; simpl in Hlen; lia.
Qed.

(** ** What sort.Sort gives on attributes *)

Lemma NoDup_fmap_elem {A B} (f : A → B) (l : list A) x y :
  NoDup (f <$> l) → x ∈ l → y ∈ l → f x = f y → x = y.
Proof.
  induction l as [|a l IH]; csimpl; [by intros _ ?%elem_of_nil|].
  rewrite NoDup_cons. intros [Ha Hl] Hx Hy Hxy.
  apply elem_of_cons in Hx as [->|Hx]; apply elem_of_cons in Hy as [->|Hy];
    try done.
  - destruct Ha. rewrite Hxy. by apply list_elem_of_fmap_2.
  - destruct Ha. rewrite <- Hxy. by apply list_elem_of_fmap_2.
  - by apply IH.
Qed.

Lemma StronglySorted_weaken {A} (R S : A → A → Prop) l :
  (∀ a b, R a b → S a b) → StronglySorted R l → StronglySorted S l.
Proof.
  intros HRS. induction 1 as [|a l _ IH Ha]; constructor; [done|].
  eapply Forall_impl; eauto.
Qed.

Lemma xmlns_attrs_perm l l' : l ≡ₚ l' → xmlns_attrs l ≡ₚ xmlns_attrs l'.
Proof. unfold xmlns_attrs. by intros ->. Qed.

Section sorted.
Context `{Sorter}.

Lemma sort_Sort_perm l : sort_Sort l ≡ₚ l.
Proof. apply sort_Sort_contract. Qed.

Lemma sort_Sort_ascending l :
  length (xmlns_attrs l) ≤ 1 → ascending Less_attr (sort_Sort l).
Proof.
  intros Hl. apply sort_Sort_contract.
  - apply Less_attr_transitive_ordering.
  - by apply asymmetric_on_xmlns.
Qed.

Lemma sort_Sort_canonical l :
  length (xmlns_attrs l) ≤ 1 →
  StronglySorted (λ a b, canonical_lt (Attr_Name b) (Attr_Name a) = false)
    (sort_Sort l).
Proof.
  intros Hl. eapply StronglySorted_weaken; [|by apply sort_Sort_ascending].
  intros a b Hba. simpl in Hba.
  destruct (canonical_lt (Attr_Name b) (Attr_Name a)) eqn:Hlt; [|done].
  apply canonical_lt_Less in Hlt. unfold Less_attr in Hba. congruence.
Qed.

Lemma sort_Sort_unique l l' :
  l ≡ₚ l' → NoDup (Attr_Name <$> l) → length (xmlns_attrs l) ≤ 1 →
  sort_Sort l = sort_Sort l'.
Proof.
  intros Hperm Hnodup Hl.
  apply (StronglySorted_unique_strong (λ a b, Less_attr b a = false)).
  - intros x1 x2 Hx1 Hx2 H12 H21.
    rewrite sort_Sort_perm in Hx1. rewrite sort_Sort_perm, <- Hperm in Hx2.
    apply (NoDup_fmap_elem Attr_Name l); [done..|].
    by apply Less_names_incomparable.
  - by apply sort_Sort_ascending.
  - apply sort_Sort_ascending. by rewrite <- (xmlns_attrs_perm _ _ Hperm).
  - by rewrite !sort_Sort_perm.
Qed.
End sorted.

(** ** The prefix map *)

Lemma foldl_writeAttr_fst l m w :
  (foldl writeAttr (m, w) l).1 = foldl recordPrefix m l.
Proof.
  revert m w. induction l as [|att l IH]; intros m w; [done|].
  cbn [foldl]. rewrite (writeAttr_append m w), IH.
  by rewrite writeAttr_prefixMap_step.
Qed.

Lemma attrsText_app m l1 l2 :
  attrsText m (l1 ++ l2)
  = attrsText m l1 +:+ attrsText (foldl recordPrefix m l1) l2.
Proof.
  unfold attrsText. rewrite foldl_app.
  destruct (foldl writeAttr (m, EmptyString) l1) as [m1 t1] eqn:H1.
  rewrite foldl_writeAttr_append. cbn [snd]. unfold attrsText.
  by rewrite <- (foldl_writeAttr_fst l1 m EmptyString), H1.
Qed.

Lemma attrsText_cons m att l :
  attrsText m (att :: l)
  = (writeAttr (m, EmptyString) att).2 +:+ attrsText (recordPrefix m att) l.
Proof.
  unfold attrsText. cbn [foldl].
  destruct (writeAttr (m, EmptyString) att) as [m1 t1] eqn:H1.
  rewrite foldl_writeAttr_append. cbn [snd]. unfold attrsText.
  by rewrite <- writeAttr_prefixMap_step, H1.
Qed.

Lemma writeAttr_namespaced m w att :
  isNamespaced att →
  writeAttr (m, w) att
  = (m, w +:+ " " +:+ default EmptyString (m !! Space (Attr_Name att)) +:+ ":"
          +:+ Local (Attr_Name att) +:+ "=" +:+ dq +:+ Value att +:+ dq).
Proof.
  intros (Hl & He & Hs). unfold writeAttr.
  rewrite (proj2 (String.eqb_neq _ _)) by congruence.
  rewrite (proj2 (String.eqb_neq _ _)) by congruence.
  by rewrite (proj2 (String.eqb_neq _ _)) by congruence.
Qed.

Lemma recordPrefix_namespaced m att : isNamespaced att → recordPrefix m att = m.
Proof.
  intros (Hl & He & Hs). unfold recordPrefix.
  rewrite (proj2 (String.eqb_neq _ _)) by congruence.
  by rewrite (proj2 (String.eqb_neq _ _)) by congruence.
Qed.

Lemma recordPrefix_declaration m att :
  isDeclaration att →
  recordPrefix m att = <[Value att := Local (Attr_Name att)]> m.
Proof.
  intros [Hl Hs]. unfold recordPrefix.
  rewrite (proj2 (String.eqb_neq _ _)) by congruence.
  by rewrite (proj2 (String.eqb_eq _ _)) by congruence.
Qed.

Lemma recordPrefix_other m att : ¬ isDeclaration att → recordPrefix m att = m.
Proof.
  intros Hd. unfold recordPrefix.
  destruct (String.eqb_spec "xmlns" (Local (Attr_Name att))); [done|].
  destruct (String.eqb_spec "xmlns" (Space (Attr_Name att))); [|done].
  destruct Hd. split; congruence.
Qed.

(** Every entry of the map comes from the initial map or from a declaration
    among the attributes. *)
Lemma foldl_recordPrefix_Some l m uri p :
  foldl recordPrefix m l !! uri = Some p →
  m !! uri = Some p
  ∨ ∃ d, d ∈ l ∧ isDeclaration d ∧ Value d = uri ∧ Local (Attr_Name d) = p.
Proof.
  revert m. induction l as [|att l IH]; intros m; cbn [foldl]; [by left|].
  intros Hp. apply IH in Hp as [Hp|(d & Hd & ?)].
  - destruct (decide (isDeclaration att)) as [Hatt|Hatt].
    + rewrite recordPrefix_declaration in Hp by done.
      apply lookup_insert_Some in Hp as [[<- <-]|[_ Hp]]; [|by left].
      right. exists att. split_and!; [left|done..].
    + rewrite recordPrefix_other in Hp by done. by left.
  - right. exists d. split; [by right|done].
Qed.

(** Every declaration among the attributes has its URI in the map. *)
Lemma foldl_recordPrefix_is_Some l m uri :
  is_Some (m !! uri) ∨ (∃ d, d ∈ l ∧ isDeclaration d ∧ Value d = uri) →
  is_Some (foldl recordPrefix m l !! uri).
Proof.
  revert m. induction l as [|att l IH]; intros m; cbn [foldl].
  - intros [?|(d & ?%elem_of_nil & _)]; done.
  - intros [Hm|(d & Hd & Hdecl & Huri)]; apply IH.
    + left. destruct (decide (isDeclaration att)) as [Hatt|Hatt].
      * rewrite recordPrefix_declaration by done.
        rewrite lookup_insert_is_Some. destruct (decide (Value att = uri)); auto.
      * by rewrite recordPrefix_other.
    + apply elem_of_cons in Hd as [->|Hd]; [left|right; eauto].
      rewrite recordPrefix_declaration, Huri by done.
      rewrite lookup_insert_eq. eauto.
Qed.

Lemma foldl_recordPrefix_others l m :
  Forall (λ a, ¬ isDeclaration a) l → foldl recordPrefix m l = m.
Proof.
  induction 1 as [|a l Ha _ IH]; cbn [foldl]; [done|].
  by rewrite recordPrefix_other.
Qed.

Lemma Less_declaration_namespaced d a :
  isDeclaration d → isNamespaced a → Less_attr d a = true.
Proof.
  intros [Hdl Hds] (Hal & _ & Has). unfold Less_attr, Less_names.
  rewrite (proj2 (String.eqb_neq _ _)) by congruence.
  rewrite (proj2 (String.eqb_neq _ _)) by congruence.
  rewrite (proj2 (String.eqb_eq _ _)) by congruence.
  by rewrite (proj2 (String.eqb_neq _ _)) by congruence.
Qed.

(** ** Insertion sort and the attributes named xmlns *)

Section ins_split.
Context {A : Type} (less : A → A → bool).

Lemma ins_before_all x rp :
  Forall (λ y, less x y = true) rp → ins less x rp = rp ++ [x].
Proof.
  induction 1 as [|y rp Hy _ IH]; simpl; [done|]. by rewrite Hy, IH.
Qed.

Lemma ins_app_stop x rp xs :
  Forall (λ y, less x y = false) xs →
  ins less x (rp ++ xs) = ins less x rp ++ xs.
Proof.
  intros Hxs. induction rp as [|y rp IH]; simpl.
  - destruct Hxs as [|y xs Hy _]; simpl; [done|by rewrite Hy].
  - destruct (less x y); [by rewrite IH|done].
Qed.
End ins_split.

(** The attribute loop neither writes nor records an attribute named
    xmlns. *)
Lemma attrsText_written m l : attrsText m l = attrsText m (written_attrs l).
Proof.
  unfold written_attrs. revert m. induction l as [|att l IH]; intros m; [done|].
  rewrite attrsText_cons, filter_cons, IH.
  destruct (decide (Local (Attr_Name att) ≠ "xmlns")) as [Hx|Hx].
  - by rewrite attrsText_cons.
  - apply dec_stable in Hx. unfold writeAttr, recordPrefix.
    by rewrite Hx.
Qed.

(** Insertion sort keeps the attributes named xmlns to the left of all
    others, which it sorts among themselves. *)
Lemma foldl_ins_written l :
  ∃ xs, Forall (λ a, Local (Attr_Name a) = "xmlns") xs
        ∧ foldl (λ rp x, ins Less_attr x rp) [] l
          = foldl (λ rp x, ins Less_attr x rp) [] (written_attrs l) ++ xs.
Proof.
  unfold written_attrs.
  induction l as [|x l (xs & Hxs & IH)] using rev_ind; [by exists []|].
  rewrite filter_app, filter_cons, filter_nil, !foldl_snoc, IH.
  destruct (decide (Local (Attr_Name x) ≠ "xmlns")) as [Hx|Hx].
  - exists xs. split; [done|]. rewrite foldl_snoc. apply ins_app_stop.
    eapply Forall_impl; [exact Hxs|]. intros y Hy. simpl in Hy.
    unfold Less_attr, Less_names.
    by rewrite (proj2 (String.eqb_neq _ _) Hx), Hy.
  - apply dec_stable in Hx. exists (xs ++ [x]). split.
    + apply Forall_app. by repeat constructor.
    + rewrite app_nil_r, (assoc_L (++)). apply ins_before_all.
      apply Forall_forall. intros y _. by apply Less_names_xmlns.
Qed.

Lemma written_attrs_isort l :
  written_attrs (isort Less_attr l) = isort Less_attr (written_attrs l).
Proof.
  destruct (foldl_ins_written l) as (xs & Hxs & Hl).
  unfold isort. rewrite Hl. unfold written_attrs at 1.
  rewrite filter_reverse, filter_app. f_equal.
  assert (filter (λ a, Local (Attr_Name a) ≠ "xmlns") xs = []) as ->.
  { clear -Hxs. induction Hxs as [|a xs Ha _ IH]; [done|].
    by rewrite filter_cons_False by (by intros ?). }
  rewrite app_nil_r.
  assert (Hall : Forall (λ a, Local (Attr_Name a) ≠ "xmlns")
                   (foldl (λ rp x, ins Less_attr x rp) [] (written_attrs l))).
  { rewrite foldl_ins_perm. unfold written_attrs.
    apply Forall_forall. by intros a [? _]%list_elem_of_filter. }
  clear -Hall. induction Hall as [|a rp Ha _ IH]; [done|].
  by rewrite filter_cons_True, IH.
Qed.

Lemma xmlns_attrs_written l : xmlns_attrs (written_attrs l) = [].
Proof.
  unfold xmlns_attrs, written_attrs. induction l as [|a l IH]; [done|].
  rewrite filter_cons. case_decide; [|done].
  by rewrite filter_cons_False.
Qed.

(** With insertion sort the text of the attributes is settled by the names
    alone as soon as they are pairwise distinct. *)
Lemma attrsText_insertion_perm m attrs attrs' :
  attrs ≡ₚ attrs' → NoDup (Attr_Name <$> attrs) →
  attrsText m (sort_insertion attrs) = attrsText m (sort_insertion attrs').
Proof.
  intros Hperm Hnd.
  rewrite (attrsText_written _ (sort_insertion attrs)).
  rewrite (attrsText_written _ (sort_insertion attrs')).
  rewrite !sort_insertion_isort, !written_attrs_isort.
  rewrite <- !sort_insertion_isort. f_equal.
  apply (sort_Sort_unique (H := insertion_Sorter)).
  - unfold written_attrs. by rewrite Hperm.
  - unfold written_attrs.
    apply (sublist_NoDup _ (Attr_Name <$> attrs)); [done|].
    apply fmap_sublist, sublist_filter.
  - rewrite xmlns_attrs_written. simpl. lia.
Qed.

(** ** Token streams and the identifier scan *)

Lemma firstStart_app tokens more t :
  firstStart tokens = Some t → firstStart (tokens ++ more) = Some t.
Proof.
  induction tokens as [|tok tokens IH]; [done|].
  destruct tok; simpl; auto.
Qed.

Lemma isIdName_spec s :
  isIdName s = true ↔ s = "ID" ∨ s = "Id" ∨ ∃ p, s = p +:+ "Id".
Proof.
  unfold isIdName. rewrite !orb_true_iff, !String.eqb_eq, HasSuffix_spec.
  tauto.
Qed.

Lemma extractedId_none attrs :
  Forall (λ a, isIdName (Local (Attr_Name a)) = false) attrs →
  extractedId attrs = EmptyString.
Proof.
  intros Hall. unfold extractedId.
  assert (filter (λ a, isIdName (Local (Attr_Name a)) = true) attrs = []) as ->; [|done].
  induction Hall as [|a attrs Ha _ IH]; [done|].
  rewrite filter_cons, decide_False by congruence. done.
Qed.

Lemma extractedId_last attrs a rest :
  isIdName (Local (Attr_Name a)) = true →
  Forall (λ b, isIdName (Local (Attr_Name b)) = false) rest →
  extractedId (attrs ++ a :: rest) = Value a.
Proof.
  intros Ha Hrest. unfold extractedId.
  rewrite filter_app, filter_cons, decide_True by done.
  assert (filter (λ a, isIdName (Local (Attr_Name a)) = true) rest = []) as ->.
  { induction Hrest as [|b rest Hb _ IH]; [done|].
    by rewrite filter_cons, decide_False by congruence. }
  by rewrite last_snoc.
Qed.

Lemma loop_tokensBeforeFault `{Sorter} pulls st :
  loop pulls st = foldl step st (tokensBeforeFault pulls).
Proof.
  revert st. induction pulls as [|[tok|e] pulls IH]; intros st; simpl; auto.
Qed.

Lemma tokensBeforeFault_fault tokens (fault : error) rest :
  tokensBeforeFault ((inl <$> tokens) ++ inr fault :: rest) = tokens.
Proof. induction tokens as [|tok tokens IH]; csimpl; [done|by f_equal]. Qed.

Lemma tokensBeforeFault_eof (tokens : list Token) :
  tokensBeforeFault (inl <$> tokens : list (Token + error)) = tokens.
Proof. induction tokens as [|tok tokens IH]; csimpl; [done|by f_equal]. Qed.

(** [Bytes] hands back what was written. *)
Lemma Buffer_Bytes_written buf :
  buf ≠ EmptyString → Buffer_Bytes buf = Some buf.
Proof. by destruct buf. Qed.

(** ** Properly nested token streams *)

Lemma openElements_app opened tokens1 tokens2 :
  openElements opened (tokens1 ++ tokens2)
  = opened' ← openElements opened tokens1; openElements opened' tokens2.
Proof.
  revert opened. induction tokens1 as [|tok tokens1 IH]; intros opened; [done|].
  destruct tok; cbn [app openElements]; try apply IH.
  by destruct opened.
Qed.

(** An End token of a properly nested stream closes an open element. *)
Lemma openElements_End opened pre name post :
  is_Some (openElements opened (pre ++ TEndElement name :: post)) →
  ∃ n opened', openElements opened pre = Some (n :: opened').
Proof.
  rewrite openElements_app. intros [opened'' Hopen].
  destruct (openElements opened pre) as [[|n opened']|]; [done| |done].
  eauto.
Qed.

(** ** Steps of the loop *)

Section steps.
Context `{Sorter}.

Lemma step_start st t :
  step st (TStartElement t)
  = mkState
      (out st +:+ "<" +:+ tagName (Start_Name t)
         +:+ (if declaresNamespace (namespaces st) (Space (Start_Name t))
              then xmlnsDecl (Space (Start_Name t)) else EmptyString)
         +:+ attrsText ∅ (sort_Sort (Start_Attr t)) +:+ ">")
      (Space (Start_Name t) :: namespaces st)
      false
      (if firstElem st then foldl scanId (id st) (Start_Attr t) else id st).
Proof.
  unfold step. rewrite writeStartElement_text. by destruct (firstElem st).
Qed.

Lemma step_end st name :
  step st (TEndElement name)
  = mkState (out st +:+ "</" +:+ tagName name +:+ ">")
      (tail (namespaces st)) (firstElem st) (id st).
Proof.
  unfold step, tagName.
  destruct (namespaces st) as [|top ns], (HasPrefix _ _); simpl;
    by rewrite ?append_assoc.
Qed.

Lemma foldl_scanId id0 attrs :
  foldl scanId id0 attrs
  = from_option Value id0
      (last (filter (λ a, isIdName (Local (Attr_Name a)) = true) attrs)).
Proof.
  revert id0. induction attrs as [|a attrs IH]; intros id0; [done|].
  cbn [foldl]. rewrite IH, filter_cons. unfold scanId.
  destruct (isIdName (Local (Attr_Name a))) eqn:Ha.
  - rewrite decide_True by done.
    destruct (filter _ attrs) as [|b l] eqn:Hf; [done|].
    destruct (proj2 (last_is_Some (b :: l))) as [c Hc]; [done|].
    by rewrite last_cons_cons, Hc.
  - by rewrite decide_False by done.
Qed.

Lemma foldl_step_id_frozen tokens st :
  firstElem st = false → id (foldl step st tokens) = id st.
Proof.
  revert st. induction tokens as [|tok tokens IH]; intros st Hst; [done|].
  cbn [foldl]. rewrite IH.
  - destruct tok; try done.
    + rewrite step_start. cbn [id]. by rewrite Hst.
    + by rewrite step_end.
  - destruct tok; try done.
    + by rewrite step_start.
    + by rewrite step_end.
Qed.

Lemma foldl_step_id tokens st :
  firstElem st = true →
  id (foldl step st tokens)
  = from_option (λ t, foldl scanId (id st) (Start_Attr t)) (id st)
      (firstStart tokens).
Proof.
  revert st. induction tokens as [|tok tokens IH]; intros st Hst; [done|].
  cbn [foldl]. destruct tok; cbn [firstStart from_option].
  - rewrite foldl_step_id_frozen by by rewrite step_start.
    rewrite step_start. cbn [id]. by rewrite Hst.
  - rewrite IH by by rewrite step_end. by rewrite step_end.
  - by rewrite IH.
  - by rewrite IH.
  - by rewrite IH.
  - by rewrite IH.
Qed.

Lemma rewriteTokens_id tokens :
  id (rewriteTokens tokens)
  = from_option (λ t, extractedId (Start_Attr t)) EmptyString (firstStart tokens).
Proof.
  unfold rewriteTokens. rewrite foldl_step_id by done. cbn [id initial].
  destruct (firstStart tokens); [|done]. apply foldl_scanId.
Qed.

Lemma step_same_token st st' tok tok' :
  same_token tok tok' → well_named tok →
  out st = out st' → namespaces st = namespaces st' →
  out (step st tok) = out (step st' tok')
  ∧ namespaces (step st tok) = namespaces (step st' tok').
Proof.
  intros Htok Hwn Hout Hns. destruct Htok as [name attrs attrs' Hperm|tok].
  - destruct Hwn as [Hnd Hx]. rewrite !step_start. cbn [out namespaces Start_Name Start_Attr].
    by rewrite Hout, Hns, (sort_Sort_unique attrs attrs').
  - destruct tok; try done.
    + rewrite !step_start. cbn [out namespaces]. by rewrite Hout, Hns.
    + rewrite !step_end. cbn [out namespaces]. by rewrite Hout, Hns.
    + cbn [step out namespaces]. by rewrite Hout.
Qed.

(** Over a properly nested stream the stack holds the namespaces of the
    open elements. *)
Lemma foldl_step_openElements tokens opened opened' st :
  openElements opened tokens = Some opened' →
  namespaces st = Space <$> opened →
  namespaces (foldl step st tokens) = Space <$> opened'.
Proof.
  revert opened st.
  induction tokens as [|tok tokens IH]; intros opened st Hopen Hst.
  - cbn in Hopen. by simplify_eq.
  - cbn [foldl]. destruct tok as [t|name|t|t|target inst|t];
      cbn [openElements] in Hopen; try by apply (IH opened).
    + apply (IH (Start_Name t :: opened)); [done|].
      rewrite step_start. cbn [namespaces]. by rewrite Hst.
    + destruct opened as [|n opened]; [done|].
      apply (IH opened); [done|].
      rewrite step_end. cbn [namespaces]. by rewrite Hst.
Qed.

(** In the sorted slice no declaration follows a namespaced attribute. *)
Lemma declarations_precede attrs pre att post :
  length (xmlns_attrs attrs) ≤ 1 →
  sort_Sort attrs = pre ++ att :: post → isNamespaced att →
  Forall (λ a, ¬ isDeclaration a) post.
Proof.
  intros Hx Hsort Hatt.
  pose proof (sort_Sort_ascending attrs Hx) as Hasc.
  unfold ascending in Hasc. rewrite Hsort in Hasc.
  apply StronglySorted_app_1_r, StronglySorted_cons in Hasc as [Hpost _].
  eapply Forall_impl; [exact Hpost|]. intros b Hb Hdecl. simpl in Hb.
  by rewrite Less_declaration_namespaced in Hb.
Qed.

End steps.

(** * The claims *)

Section claims.
Context `{Sorter} {Data : Type}.
Variable Encode : Data → string * option error.
Variable Decode : string → list (Token + error).

(** C1: a Start token gets the bare declaration of its namespace URI exactly
    when the URI starts with http and the stack is empty or its top differs
    from the URI; the URI is pushed in every case; the attribute loop never
    writes a bare xmlns attribute; so a root and a child with the same
    http URI carry the declaration once, on the root. *)
Theorem writeNameSapce_declares_once :
  (∀ ns w start,
     writeNameSapce ns w start
     = (Push ns (Space (Start_Name start)),
        if declaresNamespace ns (Space (Start_Name start))
        then w +:+ " xmlns=" +:+ dq +:+ Space (Start_Name start) +:+ dq
        else w))
  ∧ (∀ ns uri,
       declaresNamespace ns uri = true
       ↔ (∃ r, uri = "http" +:+ r)
         ∧ (ns = [] ∨ ∃ top ns', ns = top :: ns' ∧ top ≠ uri))
  ∧ (∀ st t,
       namespaces (step st (TStartElement t))
       = Space (Start_Name t) :: namespaces st)
  ∧ (∀ m att,
       (writeAttr (m, EmptyString) att).2 = EmptyString
       ∨ ∃ qname, qname ≠ "xmlns"
           ∧ (writeAttr (m, EmptyString) att).2
             = " " +:+ qname +:+ "=" +:+ dq +:+ Value att +:+ dq)
  ∧ (∀ uri root child rattrs cattrs,
       HasPrefix uri "http" = true →
       out (rewriteTokens
              [TStartElement (mkStart (mkName uri root) rattrs);
               TStartElement (mkStart (mkName uri child) cattrs)])
       = ("<" +:+ root +:+ " xmlns=" +:+ dq +:+ uri +:+ dq
              +:+ attrsText ∅ (sort_Sort rattrs) +:+ ">")
         +:+ ("<" +:+ child +:+ attrsText ∅ (sort_Sort cattrs) +:+ ">")).
Proof.
  split_and!.
  - intros ns w start. by rewrite writeNameSapce_text.
  - apply declaresNamespace_spec.
  - intros st t. by rewrite step_start.
  - apply writeAttr_no_default.
  - intros uri root child rattrs cattrs Hhttp.
    unfold rewriteTokens. cbn [foldl]. rewrite !step_start.
    cbn [out namespaces Start_Name Start_Attr Space Local initial].
    unfold tagName, declaresNamespace, xmlnsDecl. cbn [Space Local].
    rewrite Hhttp, String.eqb_refl. cbn [andb negb].
    by rewrite !append_assoc, ?append_nil_r.
Qed.

(** C2, as the code has it: when at most one attribute of a Start token has
    the local name xmlns, the attributes are written in the canonical order
    (xmlns first, then the prefixed declarations by local name, then the
    others by namespace URI and local name); that order is strict, and
    total on names; [Less] is that order except on two names that are both
    xmlns. *)
Theorem attributes_written_in_canonical_order :
  (∀ a b,
     ¬ (Local a = "xmlns" ∧ Local b = "xmlns") →
     Less_names a b = canonical_lt a b)
  ∧ (∀ a, canonical_lt a a = false)
  ∧ (∀ a b c,
       canonical_lt a b = true → canonical_lt b c = true →
       canonical_lt a c = true)
  ∧ (∀ a b,
       a ≠ b → ¬ (Local a = "xmlns" ∧ Local b = "xmlns") →
       canonical_lt a b = true ∨ canonical_lt b a = true)
  ∧ (∀ start,
       length (xmlns_attrs (Start_Attr start)) ≤ 1 →
       sort_Sort (Start_Attr start) ≡ₚ Start_Attr start
       ∧ StronglySorted
           (λ a b, canonical_lt (Attr_Name b) (Attr_Name a) = false)
           (sort_Sort (Start_Attr start))
       ∧ ∀ w ns,
           (writeStartElement w start ns).1
           = w +:+ "<" +:+ tagName (Start_Name start)
               +:+ (if declaresNamespace ns (Space (Start_Name start))
                    then xmlnsDecl (Space (Start_Name start))
                    else EmptyString)
               +:+ attrsText ∅ (sort_Sort (Start_Attr start)) +:+ ">").
Proof.
  split_and!.
  - apply Less_names_canonical.
  - apply canonical_lt_irrefl.
  - apply canonical_lt_trans.
  - apply canonical_lt_total.
  - intros start Hx. split_and!.
    + apply sort_Sort_perm.
    + by apply sort_Sort_canonical.
    + intros w ns. by rewrite writeStartElement_text.
Qed.

(** C3: the identifier is the value of the last qualifying attribute, in
    the original order, of the first Start token of the stream, and the
    empty string when there is no such attribute; tokens after the first
    Start token never change it. *)
Theorem identifier_of_first_start :
  (∀ tokens,
     id (rewriteTokens tokens)
     = from_option (λ t, extractedId (Start_Attr t)) EmptyString
         (firstStart tokens))
  ∧ (∀ pulls,
       id (loop pulls initial)
       = from_option (λ t, extractedId (Start_Attr t)) EmptyString
           (firstStart (tokensBeforeFault pulls)))
  ∧ (∀ tokens t more,
       firstStart tokens = Some t →
       id (rewriteTokens (tokens ++ more)) = id (rewriteTokens tokens))
  ∧ (∀ s, isIdName s = true ↔ s = "ID" ∨ s = "Id" ∨ ∃ p, s = p +:+ "Id")
  ∧ (∀ attrs a rest,
       isIdName (Local (Attr_Name a)) = true →
       Forall (λ b, isIdName (Local (Attr_Name b)) = false) rest →
       extractedId (attrs ++ a :: rest) = Value a)
  ∧ (∀ attrs,
       Forall (λ a, isIdName (Local (Attr_Name a)) = false) attrs →
       extractedId attrs = EmptyString)
  ∧ (∀ name,
       id (rewriteTokens
             [TStartElement
                (mkStart name
                   [mkAttr (mkName EmptyString "ID") "abc";
                    mkAttr (mkName EmptyString "Foo") "x";
                    mkAttr (mkName EmptyString "BarId") "def"])])
       = "def").
Proof.
  split_and!.
  - apply rewriteTokens_id.
  - intros pulls. rewrite loop_tokensBeforeFault. apply rewriteTokens_id.
  - intros tokens t more Ht.
    by rewrite !rewriteTokens_id, (firstStart_app _ _ _ Ht), Ht.
  - apply isIdName_spec.
  - apply extractedId_last.
  - apply extractedId_none.
  - intros name. by rewrite rewriteTokens_id.
Qed.

(** C4, as the code has it: the result is determined by the tokens pulled
    before the first fault, whichever encoder and decoder produced them;
    for attributes with pairwise distinct names the start tag written does
    not depend on the arrangement in which the attributes arrive, when
    [sort.Sort] runs its insertion sort, and also for any sort that meets
    the contract when at most one attribute has the local name xmlns; then
    the bytes of a whole run do not depend on the arrangements either. *)
Theorem output_independent_of_arrangement :
  (∀ (Encode' : Data → string * option error)
     (Decode' : string → list (Token + error)) data data',
     (Encode data).2 = None → (Encode' data').2 = None →
     tokensBeforeFault (Decode (Encode data).1)
     = tokensBeforeFault (Decode' (Encode' data').1) →
     canonicalize Encode Decode data = canonicalize Encode' Decode' data')
  ∧ (∀ attrs attrs' name w ns,
       attrs ≡ₚ attrs' → NoDup (Attr_Name <$> attrs) →
       writeStartElement (H := insertion_Sorter) w (mkStart name attrs) ns
       = writeStartElement (H := insertion_Sorter) w (mkStart name attrs') ns)
  ∧ (∀ attrs attrs',
       attrs ≡ₚ attrs' →
       NoDup (Attr_Name <$> attrs) → length (xmlns_attrs attrs) ≤ 1 →
       sort_Sort attrs = sort_Sort attrs'
       ∧ ∀ name w ns,
           writeStartElement w (mkStart name attrs) ns
           = writeStartElement w (mkStart name attrs') ns)
  ∧ (∀ tokens tokens',
       Forall2 same_token tokens tokens' → Forall well_named tokens →
       out (rewriteTokens tokens) = out (rewriteTokens tokens')).
Proof.
  split_and!.
  - intros Encode' Decode' data data' He He' Htoks. unfold canonicalize.
    destruct (Encode data) as [buffer err], (Encode' data') as [buffer' err'].
    simpl in *. subst. by rewrite !loop_tokensBeforeFault, Htoks.
  - intros attrs attrs' name w ns Hperm Hnd.
    rewrite !writeStartElement_text. cbn [Start_Name Start_Attr sort_Sort].
    by rewrite (attrsText_insertion_perm _ _ _ Hperm Hnd).
  - intros attrs attrs' Hperm Hnd Hx.
    pose proof (sort_Sort_unique _ _ Hperm Hnd Hx) as Hsort.
    split; [done|]. intros name w ns.
    rewrite !writeStartElement_text. cbn [Start_Name Start_Attr].
    by rewrite Hsort.
  - intros tokens tokens' Htoks Hwn. unfold rewriteTokens.
    assert (Hgen : ∀ st st',
      out st = out st' → namespaces st = namespaces st' →
      out (foldl step st tokens) = out (foldl step st' tokens')); [|by apply Hgen].
    induction Htoks as [|tok tok' tokens tokens' Htok _ IH];
      intros st st' Ho Hn; [done|].
    apply Forall_cons in Hwn as [Hwn1 Hwn2]. cbn [foldl].
    destruct (step_same_token st st' tok tok' Htok Hwn1 Ho Hn).
    by apply IH.
Qed.

(** C5: the error returned is the one of the encoding step, and then the
    bytes are nil and the identifier empty whatever the decoder would do;
    otherwise the loop stops at the first fault of the decoder, whichever
    it is, or at the end of the input, and the bytes written so far (nil
    when none was written) and the identifier come back with a nil
    error. *)
Theorem canonicalize_error_iff_encode_fails :
  (∀ data, (canonicalize Encode Decode data).2 ≠ None ↔ (Encode data).2 ≠ None)
  ∧ (∀ data e,
       (Encode data).2 = Some e →
       canonicalize Encode Decode data = (None, EmptyString, Some e))
  ∧ (∀ data st,
       (Encode data).2 = None →
       st = rewriteTokens (tokensBeforeFault (Decode (Encode data).1)) →
       (canonicalize Encode Decode data).2 = None
       ∧ (canonicalize Encode Decode data).1.2 = id st
       ∧ (out st ≠ EmptyString →
          (canonicalize Encode Decode data).1.1 = Some (out st))
       ∧ (out st = EmptyString →
          (canonicalize Encode Decode data).1.1 = None))
  ∧ (∀ tokens (fault : error) rest,
       tokensBeforeFault ((inl <$> tokens) ++ inr fault :: rest) = tokens)
  ∧ (∀ tokens : list Token,
       tokensBeforeFault (inl <$> tokens : list (Token + error)) = tokens)
  ∧ (∀ pulls st, loop pulls st = foldl step st (tokensBeforeFault pulls)).
Proof.
  split_and!.
  - intros data. unfold canonicalize.
    destruct (Encode data) as [buffer [e|]]; simpl; split; congruence.
  - intros data e He. unfold canonicalize.
    destruct (Encode data) as [buffer err]. simpl in He. by subst.
  - intros data st He ->. unfold canonicalize.
    destruct (Encode data) as [buffer err]. simpl in *. subst.
    rewrite loop_tokensBeforeFault. cbn [fst snd].
    fold (rewriteTokens (tokensBeforeFault (Decode buffer))).
    split_and!; [done..| |]; intros Hout.
    + by apply Buffer_Bytes_written.
    + by rewrite Hout.
  - apply tokensBeforeFault_fault.
  - apply tokensBeforeFault_eof.
  - apply loop_tokensBeforeFault.
Qed.


(** C7, as the code has it: an attribute whose local name is not xmlns and
    whose namespace component is neither empty nor xmlns is written with the
    prefix recorded for its namespace URI in the prefix map, and with an
    empty prefix when the map has none; the map holds nothing but the
    declarations sorted before the attribute on the same element. *)
Theorem namespaced_attribute_prefix :
  (∀ m w att,
     isNamespaced att →
     writeAttr (m, w) att
     = (m, w +:+ " " +:+ default EmptyString (m !! Space (Attr_Name att))
             +:+ ":" +:+ Local (Attr_Name att)
             +:+ "=" +:+ dq +:+ Value att +:+ dq))
  ∧ (∀ start w ns pre att post,
       sort_Sort (Start_Attr start) = pre ++ att :: post →
       isNamespaced att →
       (writeStartElement w start ns).1
       = w +:+ "<" +:+ tagName (Start_Name start)
           +:+ (if declaresNamespace ns (Space (Start_Name start))
                then xmlnsDecl (Space (Start_Name start)) else EmptyString)
           +:+ attrsText ∅ pre
           +:+ (" " +:+ default EmptyString (prefixMap pre !! Space (Attr_Name att))
                    +:+ ":" +:+ Local (Attr_Name att)
                    +:+ "=" +:+ dq +:+ Value att +:+ dq)
           +:+ attrsText (prefixMap pre) post +:+ ">"
       ∧ (∀ uri p,
            prefixMap pre !! uri = Some p →
            ∃ d, d ∈ Start_Attr start ∧ isDeclaration d
                 ∧ Value d = uri ∧ Local (Attr_Name d) = p)
       ∧ (length (xmlns_attrs (Start_Attr start)) ≤ 1 →
          ∀ d, d ∈ Start_Attr start → isDeclaration d →
               is_Some (prefixMap pre !! Value d)))
  ∧ (∀ root child p uri k v,
       p ≠ "xmlns" → k ≠ "xmlns" → uri ≠ EmptyString → uri ≠ "xmlns" →
       out (rewriteTokens
              [TStartElement (mkStart root [mkAttr (mkName "xmlns" p) uri]);
               TStartElement (mkStart child [mkAttr (mkName uri k) v])])
       = ("<" +:+ tagName root
              +:+ (if declaresNamespace [] (Space root)
                   then xmlnsDecl (Space root) else EmptyString)
              +:+ " xmlns:" +:+ p +:+ "=" +:+ dq +:+ uri +:+ dq +:+ ">")
         +:+ ("<" +:+ tagName child
                +:+ (if declaresNamespace [Space root] (Space child)
                     then xmlnsDecl (Space child) else EmptyString)
                +:+ " :" +:+ k +:+ "=" +:+ dq +:+ v +:+ dq +:+ ">")).
Proof.
  split_and!.
  - apply writeAttr_namespaced.
  - intros start w ns pre att post Hsort Hatt. split_and!.
    + rewrite writeStartElement_text. cbn [fst]. rewrite Hsort.
      rewrite attrsText_app, attrsText_cons.
      rewrite writeAttr_namespaced, recordPrefix_namespaced by done.
      cbn [snd]. unfold prefixMap. by rewrite !append_assoc.
    + intros uri p Hp. unfold prefixMap in Hp.
      apply foldl_recordPrefix_Some in Hp as [Hp|(d & Hd & ?)]; [done|].
      exists d. split; [|done].
      rewrite <- sort_Sort_perm, Hsort. apply elem_of_app. by left.
    + intros Hx d Hd Hdecl.
      pose proof (declarations_precede _ _ _ _ Hx Hsort Hatt) as Hpost.
      assert (Hall : prefixMap (sort_Sort (Start_Attr start)) = prefixMap pre).
      { unfold prefixMap. rewrite Hsort, foldl_app. cbn [foldl].
        by rewrite recordPrefix_namespaced, foldl_recordPrefix_others. }
      rewrite <- Hall. unfold prefixMap.
      apply foldl_recordPrefix_is_Some. right. exists d.
      split; [by rewrite sort_Sort_perm|done].
  - intros root child p uri k v Hp Hk Hu1 Hu2.
    unfold rewriteTokens. cbn [foldl]. rewrite !step_start.
    cbn [out namespaces Start_Name Start_Attr initial].
    rewrite !(proj1 (Permutation_singleton_r _ _) (sort_Sort_perm _)).
    assert (Hns : isNamespaced (mkAttr (mkName uri k) v)) by done.
    assert (Hdecl : isDeclaration (mkAttr (mkName "xmlns" p) uri)) by done.
    rewrite !attrsText_cons.
    rewrite (writeAttr_namespaced _ _ _ Hns), (recordPrefix_namespaced _ _ Hns).
    rewrite (recordPrefix_declaration _ _ Hdecl).
    unfold attrsText, writeAttr. cbn [Attr_Name Local Space Value foldl fst snd].
    rewrite (proj2 (String.eqb_neq "xmlns" p)) by congruence.
    cbn [String.eqb Ascii.eqb Bool.eqb fst snd]. rewrite lookup_empty. cbn [default].
    rewrite ?append_nil_r, !append_assoc. reflexivity.
Qed.

(** C8: an element whose namespace URI does not start with http is written
    with the namespace itself as a colon-prefix, on the start tag and on the
    end tag; one whose URI starts with http is written with its bare local
    name. *)
Theorem tags_render_namespace_as_prefix :
  (∀ w start ns,
     HasPrefix (Space (Start_Name start)) "http" = false →
     (writeStartElement w start ns).1
     = w +:+ "<" +:+ Space (Start_Name start) +:+ ":" +:+ Local (Start_Name start)
         +:+ attrsText ∅ (sort_Sort (Start_Attr start)) +:+ ">")
  ∧ (∀ st name,
       HasPrefix (Space name) "http" = false →
       out (step st (TEndElement name))
       = out st +:+ "</" +:+ Space name +:+ ":" +:+ Local name +:+ ">")
  ∧ (∀ w start ns,
       HasPrefix (Space (Start_Name start)) "http" = true →
       (writeStartElement w start ns).1
       = w +:+ "<" +:+ Local (Start_Name start)
           +:+ (if declaresNamespace ns (Space (Start_Name start))
                then " xmlns=" +:+ dq +:+ Space (Start_Name start) +:+ dq
                else EmptyString)
           +:+ attrsText ∅ (sort_Sort (Start_Attr start)) +:+ ">")
  ∧ (∀ st name,
       HasPrefix (Space name) "http" = true →
       out (step st (TEndElement name)) = out st +:+ "</" +:+ Local name +:+ ">").
Proof.
  split_and!.
  - intros w start ns Hhttp. rewrite writeStartElement_text. cbn [fst].
    unfold tagName, declaresNamespace. rewrite Hhttp. cbn [andb].
    by rewrite !append_assoc.
  - intros st name Hhttp. rewrite step_end. cbn [out].
    unfold tagName. rewrite Hhttp. by rewrite !append_assoc.
  - intros w start ns Hhttp. rewrite writeStartElement_text. cbn [fst].
    unfold tagName. by rewrite Hhttp.
  - intros st name Hhttp. rewrite step_end. cbn [out].
    unfold tagName. by rewrite Hhttp.
Qed.

(** C9: [Less] answers true in both directions for two attributes whose
    local name is xmlns, and for no other pair; hence it is asymmetric on
    the positions of a slice exactly when at most one attribute of the
    slice has the local name xmlns. *)
Theorem Less_asymmetric_iff_one_xmlns :
  (∀ a b,
     Local a = "xmlns" → Local b = "xmlns" →
     Less_names a b = true ∧ Less_names b a = true)
  ∧ (∀ a b,
       Less_names a b = true → Less_names b a = true →
       Local a = "xmlns" ∧ Local b = "xmlns")
  ∧ (∀ (att : canonAtt) i j a b,
       att !! i = Some a → att !! j = Some b →
       Local (Attr_Name a) = "xmlns" → Local (Attr_Name b) = "xmlns" →
       Less att i j = Some true ∧ Less att j i = Some true)
  ∧ (∀ l, asymmetric_on Less_attr l ↔ length (xmlns_attrs l) ≤ 1).
Proof.
  split_and!.
  - intros a b Ha Hb. by rewrite !Less_names_xmlns.
  - apply Less_names_both.
  - intros att i j a b Hi Hj Ha Hb. simpl. unfold canonAtt_Less.
    rewrite Hi, Hj. simpl. by rewrite !Less_names_xmlns.
  - apply asymmetric_on_xmlns.
Qed.

(** C10: the identifier scan looks at local names only and compares them
    case-sensitively: a prefixed namespace declaration whose prefix ends in
    Id sets the identifier to the declared URI, and an attribute named id in
    lower case never sets it. *)
Theorem identifier_scan_ignores_kind_not_case :
  (∀ name,
     id (rewriteTokens
           [TStartElement (mkStart name [mkAttr (mkName "xmlns" "fooId") "u"])])
     = "u")
  ∧ (∀ id0 p uri, scanId id0 (mkAttr (mkName "xmlns" (p +:+ "Id")) uri) = uri)
  ∧ (∀ id0 space value, scanId id0 (mkAttr (mkName space "id") value) = id0)
  ∧ (∀ name space value,
       id (rewriteTokens
             [TStartElement (mkStart name [mkAttr (mkName space "id") value])])
       = EmptyString).
Proof.
  split_and!.
  - intros name. by rewrite rewriteTokens_id.
  - intros id0 p uri. unfold scanId. cbn [Attr_Name Local Value].
    by rewrite (proj2 (isIdName_spec (p +:+ "Id"))) by eauto.
  - done.
  - intros name space value. by rewrite rewriteTokens_id.
Qed.

End claims.

(** * Further properties *)

Section further.
Context `{Sorter}.

(** The insertion sort of package sort, run through the [Len], [Less] and
    [Swap] of [canonAtt], never indexes out of range; it leaves a
    rearrangement of the slice, ascending when [Less] is asymmetric on it. *)
Theorem insertionSort_canonAtt_sorts (l : list Attr) :
  ∃ l', insertionSort (l : canonAtt) = Some l'
        ∧ l' ≡ₚ l
        ∧ (asymmetric_on Less_attr l → ascending Less_attr l').
Proof.
  exists (isort Less_attr l). split_and!.
  - apply insertionSort_canonAtt.
  - apply isort_perm.
  - apply isort_ascending, Less_attr_transitive_ordering.
Qed.

(** [Less] meets the two transitivity conditions that [sort.Interface]
    documents, on all attributes, and answers for every pair of indices in
    range. *)
Theorem Less_meets_Interface_conditions :
  transitive_ordering Less_attr
  ∧ ∀ (att : canonAtt) i j,
      is_Some (Less att i j) ↔ i < length att ∧ j < length att.
Proof.
  split; [apply Less_attr_transitive_ordering|].
  intros att i j. simpl. unfold canonAtt_Less, canonAtt in *.
  rewrite <- !lookup_lt_is_Some. split.
  - destruct (att !! i), (att !! j); simpl; intros [? ?]; try done; eauto.
  - intros [[a ->] [b ->]]. simpl. eauto.
Qed.

(** Over the properly nested tokens that the decoder hands out, the stack
    is the list of the namespaces of the elements still open, innermost
    first, so that its depth is the nesting depth, and no End token is met
    with an empty stack.  A Start token pushes the namespace of its
    element, an End token removes the top entry, and a token of another
    kind leaves the stack as it is. *)
Theorem stack_holds_the_open_namespaces :
  (∀ tokens opened opened' st,
     openElements opened tokens = Some opened' →
     namespaces st = Space <$> opened →
     namespaces (foldl step st tokens) = Space <$> opened'
     ∧ length (namespaces (foldl step st tokens)) = length opened'
     ∧ ∀ pre name post,
         tokens = pre ++ TEndElement name :: post →
         namespaces (foldl step st pre) ≠ [])
  ∧ (∀ st t,
       namespaces (step st (TStartElement t))
       = Space (Start_Name t) :: namespaces st)
  ∧ (∀ st name uri ns,
       namespaces st = uri :: ns →
       namespaces (step st (TEndElement name)) = ns)
  ∧ (∀ st tok,
       (∀ t, tok ≠ TStartElement t) → (∀ name, tok ≠ TEndElement name) →
       namespaces (step st tok) = namespaces st).
Proof.
  split_and!.
  - intros tokens opened opened' st Hopen Hst.
    pose proof (foldl_step_openElements _ _ _ _ Hopen Hst) as Hns.
    split_and!; [done|by rewrite Hns, length_fmap|].
    intros pre name post ->.
    destruct (openElements_End opened pre name post) as (n & o & Hpre);
      [by rewrite Hopen|].
    by rewrite (foldl_step_openElements _ _ _ _ Hpre Hst).
  - intros st t. by rewrite step_start.
  - intros st name uri ns Hst. rewrite step_end. cbn [namespaces].
    by rewrite Hst.
  - intros st tok Hstart Hend. destruct tok; try done.
    + by destruct (Hstart t).
    + by destruct (Hend name).
Qed.

Lemma step_appends st tok : ∃ w, out (step st tok) = out st +:+ w.
Proof.
  destruct tok.
  - rewrite step_start. cbn [out]. eauto.
  - rewrite step_end. cbn [out]. eauto.
  - cbn [step out]. eauto.
  - exists EmptyString. by rewrite append_nil_r.
  - exists EmptyString. by rewrite append_nil_r.
  - exists EmptyString. by rewrite append_nil_r.
Qed.

(** The output only grows: what is written for a stream cut short, by a
    fault or otherwise, is a prefix of what is written for the whole
    stream; character data is appended as it is, and comments, processing
    instructions and directives write nothing. *)
Theorem output_only_grows :
  (∀ tokens more,
     ∃ w, out (rewriteTokens (tokens ++ more))
          = out (rewriteTokens tokens) +:+ w)
  ∧ (∀ tokens t,
       out (rewriteTokens (tokens ++ [TCharData t]))
       = out (rewriteTokens tokens) +:+ t)
  ∧ (∀ tokens tok,
       match tok with
       | TComment _ | TProcInst _ _ | TDirective _ => True
       | _ => False
       end →
       rewriteTokens (tokens ++ [tok]) = rewriteTokens tokens).
Proof.
  unfold rewriteTokens. split_and!.
  - intros tokens more. rewrite foldl_app.
    generalize (foldl step initial tokens). intros st.
    induction more as [|tok more IH] using rev_ind.
    + exists EmptyString. by rewrite append_nil_r.
    + destruct IH as [w Hw]. rewrite foldl_snoc.
      destruct (step_appends (foldl step st more) tok) as [w' Hw'].
      exists (w +:+ w'). by rewrite Hw', Hw, append_assoc.
  - intros tokens t. by rewrite foldl_snoc.
  - intros tokens tok Htok. rewrite foldl_snoc. by destruct tok.
Qed.

(** A root and a child with different http namespace URIs both carry the
    declaration of their namespace. *)
Theorem different_namespace_is_declared_again :
  ∀ uri1 uri2 root child rattrs cattrs,
    HasPrefix uri1 "http" = true → HasPrefix uri2 "http" = true →
    uri1 ≠ uri2 →
    out (rewriteTokens
           [TStartElement (mkStart (mkName uri1 root) rattrs);
            TStartElement (mkStart (mkName uri2 child) cattrs)])
    = ("<" +:+ root +:+ " xmlns=" +:+ dq +:+ uri1 +:+ dq
           +:+ attrsText ∅ (sort_Sort rattrs) +:+ ">")
      +:+ ("<" +:+ child +:+ " xmlns=" +:+ dq +:+ uri2 +:+ dq
             +:+ attrsText ∅ (sort_Sort cattrs) +:+ ">").
Proof.
  intros uri1 uri2 root child rattrs cattrs H1 H2 Hne.
  unfold rewriteTokens. cbn [foldl]. rewrite !step_start.
  cbn [out namespaces Start_Name Start_Attr Space Local initial].
  unfold tagName, declaresNamespace, xmlnsDecl. cbn [Space Local].
  rewrite H1, H2, (proj2 (String.eqb_neq uri1 uri2)) by done. cbn [andb negb].
  by rewrite !append_assoc, ?append_nil_r.
Qed.
End further.

(** ** Swap *)

Lemma swapIndex_inj i j : Inj (=) (=) (swapIndex i j).
Proof. intros k1 k2. unfold swapIndex. repeat case_decide; congruence. Qed.

Lemma canonAtt_Swap_lookup (att att' : list Attr) i j k :
  canonAtt_Swap att i j = Some att' → att' !! k = att !! swapIndex i j k.
Proof.
  unfold canonAtt_Swap, canonAtt, swapIndex in *. intros Hswap.
  destruct (att !! i) as [ai|] eqn:Hi; [|done].
  destruct (att !! j) as [aj|] eqn:Hj; [|done].
  simpl in Hswap. injection Hswap as <-.
  pose proof (lookup_lt_Some _ _ _ Hi) as Hil.
  pose proof (lookup_lt_Some _ _ _ Hj) as Hjl.
  destruct (decide (k = j)) as [->|Hkj].
  - rewrite list_lookup_insert_eq by (rewrite length_insert; lia).
    case_decide; congruence.
  - rewrite list_lookup_insert_ne by done.
    destruct (decide (k = i)) as [->|Hki].
    + by rewrite list_lookup_insert_eq.
    + by rewrite list_lookup_insert_ne.
Qed.

(** [Swap] exchanges two entries of the slice in place: it answers exactly
    for the indices in range, keeps [Len], leaves a rearrangement, undoes
    itself, does not care about the order of its arguments, and turns the
    answer of [Less] on the two positions around. *)
Theorem Swap_exchanges_in_place (att : canonAtt) (i j : nat) :
  (is_Some (Swap att i j) ↔ i < Len att ∧ j < Len att)
  ∧ ∀ att', Swap att i j = Some att' →
      Len att' = Len att
      ∧ att' ≡ₚ att
      ∧ att' !! i = att !! j
      ∧ att' !! j = att !! i
      ∧ (∀ k, k ≠ i → k ≠ j → att' !! k = att !! k)
      ∧ Swap att' i j = Some att
      ∧ Swap att j i = Some att'
      ∧ Less att' i j = Less att j i.
Proof.
  simpl. split.
  - unfold canonAtt_Swap, canonAtt_Len, canonAtt in *.
    rewrite <- !lookup_lt_is_Some.
    destruct (att !! i), (att !! j); simpl; split; intros [? ?]; try done; eauto.
  - intros att' Hswap.
    pose proof (λ k, canonAtt_Swap_lookup att att' i j k Hswap) as Hlook.
    assert (Hi : att' !! i = att !! j).
    { rewrite Hlook. unfold swapIndex. by rewrite decide_True. }
    assert (Hj : att' !! j = att !! i).
    { rewrite Hlook. unfold swapIndex. case_decide; [by subst|].
      by rewrite decide_True. }
    assert (Hlen : canonAtt_Len att' = canonAtt_Len att).
    { unfold canonAtt_Swap, canonAtt_Len, canonAtt in *.
      destruct (att !! i), (att !! j); simplify_eq/=.
      by rewrite !length_insert. }
    split_and!; try done.
    + apply Permutation_inj. split; [done|].
      exists (swapIndex i j). split; [apply swapIndex_inj|done].
    + intros k Hki Hkj. rewrite Hlook. unfold swapIndex.
      by rewrite !decide_False.
    + unfold canonAtt_Swap, canonAtt in *. rewrite Hi, Hj.
      destruct (att !! i) as [ai|] eqn:Hai; [|done].
      destruct (att !! j) as [aj|] eqn:Haj; [|done].
      simpl. f_equal. apply list_eq. intros k.
      destruct (decide (k = j)) as [->|Hkj].
      * rewrite list_lookup_insert_eq; [done|].
        rewrite length_insert. by eapply lookup_lt_Some.
      * rewrite list_lookup_insert_ne by done.
        destruct (decide (k = i)) as [->|Hki].
        -- rewrite list_lookup_insert_eq; [done|]. by eapply lookup_lt_Some.
        -- rewrite list_lookup_insert_ne by done. rewrite Hlook.
           unfold swapIndex. by rewrite !decide_False.
    + unfold canonAtt_Swap, canonAtt in *.
      destruct (att !! i) as [ai|] eqn:Hai; [|done].
      destruct (att !! j) as [aj|] eqn:Haj; [|done].
      simplify_eq/=. f_equal.
      destruct (decide (i = j)) as [->|Hne].
      * by simplify_eq.
      * by apply list_insert_insert_ne.
    + unfold canonAtt_Less, canonAtt in *. by rewrite Hi, Hj.
Qed.

(** ** Well-nested token streams *)

Section nesting.
Context `{Sorter}.

Lemma wellNested_namespaces tokens :
  wellNested tokens →
  ∀ st, namespaces (foldl step st tokens) = namespaces st.
Proof.
  induction 1 as [|t rest _ IH|t rest _ IH|target inst rest _ IH|t rest _ IH
                 |t inner name rest _ IHinner _ IHrest]; intros st;
    [done|by (cbn [foldl]; rewrite IH)..|].
  change (foldl step st (TStartElement t :: inner ++ TEndElement name :: rest))
    with (foldl step (step st (TStartElement t))
            (inner ++ [TEndElement name] ++ rest)).
  rewrite !foldl_app, IHrest. cbn [foldl].
  rewrite step_end. cbn [namespaces].
  by rewrite IHinner, step_start.
Qed.

(** Once an element and everything inside it is closed the stack is what
    it was before the element: what is written for the element that
    follows, and whether it gets a declaration, is settled by the namespace
    of the enclosing element and not by the element just closed. *)
Theorem closed_element_restores_the_stack :
  (∀ tokens st,
     wellNested tokens → namespaces (foldl step st tokens) = namespaces st)
  ∧ (∀ st t inner name next,
       wellNested inner →
       out (foldl step st
              (TStartElement t :: inner
                 ++ [TEndElement name; TStartElement next]))
       = out (foldl step st (TStartElement t :: inner ++ [TEndElement name]))
           +:+ "<" +:+ tagName (Start_Name next)
           +:+ (if declaresNamespace (namespaces st) (Space (Start_Name next))
                then xmlnsDecl (Space (Start_Name next)) else EmptyString)
           +:+ attrsText ∅ (sort_Sort (Start_Attr next)) +:+ ">").
Proof.
  split.
  - intros tokens st Hwn. by apply wellNested_namespaces.
  - intros st t inner name next Hwn.
    replace (TStartElement t :: inner ++ [TEndElement name; TStartElement next])
      with ((TStartElement t :: inner ++ [TEndElement name])
              ++ [TStartElement next])
      by (simpl; by rewrite <- (assoc_L (++))).
    rewrite foldl_snoc, step_start. cbn [out].
    rewrite (wellNested_namespaces (TStartElement t :: inner ++ [TEndElement name])).
    + done.
    + apply (wellNested_element t inner name []); [done|constructor].
Qed.
End nesting.

(** ** Documents in one namespace *)

Section plain.
Context `{Sorter}.

Lemma foldl_step_plain uri tokens :
  startsIn uri tokens →
  ∀ depth st,
    namespaces st = replicate depth uri →
    openAtStarts depth tokens = true →
    out (foldl step st tokens) = out st +:+ plainTexts tokens.
Proof.
  induction 1 as [|tok tokens Htok _ IH]; intros depth st Hst Hopen.
  - simpl. by rewrite append_nil_r.
  - cbn [foldl plainTexts foldr]. fold (plainTexts tokens).
    destruct tok as [t|name|t|t|target inst|t]; cbn [openAtStarts] in Hopen.
    + apply andb_true_iff in Hopen as [Hd Hopen]. apply Nat.ltb_lt in Hd.
      rewrite (IH (S depth)); [|by rewrite step_start; cbn; rewrite Hst, Htok|done].
      rewrite step_start. cbn [out plainText].
      destruct depth as [|depth]; [lia|].
      unfold declaresNamespace. rewrite Hst, Htok. cbn [replicate].
      rewrite String.eqb_refl, andb_false_r.
      by rewrite !append_assoc.
    + rewrite (IH (pred depth));
        [|by rewrite step_end; cbn; rewrite Hst; destruct depth|done].
      rewrite step_end. cbn [out plainText]. by rewrite !append_assoc.
    + rewrite (IH depth); [|done..]. cbn [step out plainText].
      by rewrite !append_assoc.
    + by rewrite (IH depth).
    + by rewrite (IH depth).
    + by rewrite (IH depth).
Qed.

(** A document whose elements all have the namespace of the root, an http
    URI, carries the declaration on the root and nowhere else: every token
    after the root's Start token is written without one, as long as no
    Start token comes after the root is closed. *)
Theorem one_namespace_is_declared_once :
  ∀ uri root attrs rest,
    HasPrefix uri "http" = true →
    startsIn uri rest → openAtStarts 1 rest = true →
    out (rewriteTokens (TStartElement (mkStart (mkName uri root) attrs) :: rest))
    = ("<" +:+ root +:+ " xmlns=" +:+ dq +:+ uri +:+ dq
           +:+ attrsText ∅ (sort_Sort attrs) +:+ ">")
      +:+ plainTexts rest.
Proof.
  intros uri root attrs rest Hhttp Hin Hopen. unfold rewriteTokens.
  cbn [foldl].
  rewrite (foldl_step_plain uri rest Hin 1); [|by rewrite step_start|done].
  rewrite step_start. cbn [out namespaces initial Start_Name Start_Attr Space].
  unfold tagName, declaresNamespace, xmlnsDecl. cbn [Space Local].
  rewrite Hhttp. cbn [andb].
  by rewrite !append_assoc, ?append_nil_r.
Qed.
End plain.

(** ** Nothing is escaped *)

Section unescaped.
Context `{Sorter}.

Lemma sort_Sort_nil : sort_Sort [] = [].
Proof. apply Permutation_nil_r. by rewrite sort_Sort_perm. Qed.

(** A slice that is already in order, with distinct names and at most one
    attribute named xmlns, is left as it is. *)
Lemma sort_Sort_ascending_id l :
  ascending Less_attr l → NoDup (Attr_Name <$> l) →
  length (xmlns_attrs l) ≤ 1 → sort_Sort l = l.
Proof.
  intros Hasc Hnd Hx.
  apply (StronglySorted_unique_strong (λ a b, Less_attr b a = false)).
  - intros x1 x2 Hx1 Hx2 H12 H21. rewrite sort_Sort_perm in Hx1.
    apply (NoDup_fmap_elem Attr_Name l); [done..|].
    by apply Less_names_incomparable.
  - by apply sort_Sort_ascending.
  - done.
  - apply sort_Sort_perm.
Qed.

Lemma sort_Sort_two k1 v1 k2 v2 :
  k1 ≠ "xmlns" → k2 ≠ "xmlns" → String.ltb k1 k2 = true →
  sort_Sort [mkAttr (mkName EmptyString k1) v1; mkAttr (mkName EmptyString k2) v2]
  = [mkAttr (mkName EmptyString k1) v1; mkAttr (mkName EmptyString k2) v2].
Proof.
  intros H1 H2 Hlt. apply sort_Sort_ascending_id.
  - repeat constructor. unfold Less_attr, Less_names. cbn [Attr_Name Local Space].
    rewrite (proj2 (String.eqb_neq _ _) H2), (proj2 (String.eqb_neq _ _) H1).
    cbn. by apply ltb_asym.
  - csimpl. apply NoDup_cons. split; [|apply NoDup_singleton].
    intros Hin%list_elem_of_singleton. simplify_eq.
    by rewrite ltb_irrefl in Hlt.
  - unfold xmlns_attrs. rewrite !filter_cons, filter_nil.
    cbn [Attr_Name Local]. rewrite !decide_False by done. simpl. lia.
Qed.

(** Nothing is escaped.  Character data that spells a tag is written as
    the tag itself, and an attribute value that holds a quote and the text
    of a second attribute gives the bytes of two attributes. *)
Theorem text_and_values_are_written_unescaped :
  (∀ st name,
     HasPrefix (Space name) "http" = false →
     out (foldl step st
            [TStartElement (mkStart name []); TEndElement name])
     = out (step st
              (TCharData ("<" +:+ Space name +:+ ":" +:+ Local name +:+ ">"
                              +:+ "</" +:+ Space name +:+ ":" +:+ Local name
                              +:+ ">"))))
  ∧ (∀ w name ns k1 v1 k2 v2,
       k1 ≠ "xmlns" → k2 ≠ "xmlns" → String.ltb k1 k2 = true →
       writeStartElement w
         (mkStart name
            [mkAttr (mkName EmptyString k1)
               (v1 +:+ dq +:+ " " +:+ k2 +:+ "=" +:+ dq +:+ v2)]) ns
       = writeStartElement w
           (mkStart name
              [mkAttr (mkName EmptyString k1) v1;
               mkAttr (mkName EmptyString k2) v2]) ns).
Proof.
  split.
  - intros st name Hhttp. cbn [foldl]. rewrite step_end, step_start.
    cbn [out step Start_Name Start_Attr].
    unfold tagName, declaresNamespace. rewrite Hhttp, sort_Sort_nil. cbn [andb].
    unfold attrsText. cbn [foldl snd].
    by rewrite !append_assoc, ?append_nil_r.
  - intros w name ns k1 v1 k2 v2 H1 H2 Hlt.
    rewrite !writeStartElement_text. cbn [Start_Name Start_Attr].
    rewrite (sort_Sort_two _ _ _ _ H1 H2 Hlt).
    rewrite (proj1 (Permutation_singleton_r _ _) (sort_Sort_perm _)).
    do 2 f_equal. f_equal. f_equal.
    unfold attrsText, writeAttr. cbn [foldl Attr_Name Local Space Value].
    rewrite (proj2 (String.eqb_neq "xmlns" k1)) by done.
    rewrite (proj2 (String.eqb_neq "xmlns" k2)) by done.
    cbn [String.eqb fst snd].
    by rewrite !append_assoc, ?append_nil_r.
Qed.
End unescaped.

(** ** Empty output *)

Lemma append_eq_nil (s t : string) :
  s +:+ t = EmptyString ↔ s = EmptyString ∧ t = EmptyString.
Proof.
  split; [|by intros [-> ->]].
  destruct s; [done|]. by rewrite append_cons.
Qed.

Section empty_output.
Context `{Sorter} {Data : Type}.
Variable Encode : Data → string * option error.
Variable Decode : string → list (Token + error).

Lemma step_out_nil st tok :
  out (step st tok) = EmptyString ↔ out st = EmptyString ∧ writesNothing tok.
Proof.
  destruct tok; cbn [writesNothing].
  - rewrite step_start. cbn [out]. rewrite append_eq_nil.
    split; [|tauto]. intros [_ Hn]. by rewrite append_cons in Hn.
  - rewrite step_end. cbn [out]. rewrite append_eq_nil.
    split; [|tauto]. intros [_ Hn]. by rewrite append_cons in Hn.
  - cbn [step out]. apply append_eq_nil.
  - cbn [step]. tauto.
  - cbn [step]. tauto.
  - cbn [step]. tauto.
Qed.

Lemma foldl_step_out_nil tokens st :
  out (foldl step st tokens) = EmptyString
  ↔ out st = EmptyString ∧ Forall writesNothing tokens.
Proof.
  revert st. induction tokens as [|tok tokens IH]; intros st; cbn [foldl].
  - split; [by intros ?; split|by intros [? _]].
  - rewrite IH, step_out_nil, Forall_cons. tauto.
Qed.

Lemma writesNothing_firstStart tokens :
  Forall writesNothing tokens → firstStart tokens = None.
Proof.
  induction 1 as [|tok tokens Htok _ IH]; [done|]. by destruct tok.
Qed.

(** The bytes returned are nil exactly when the encoder fails or no token
    pulled before the first fault is a Start token, an End token or
    non-empty character data; in the second case the identifier is empty
    and the error nil, so an empty document is told from a failure by the
    error alone. *)
Theorem nil_bytes_iff_nothing_written :
  ∀ data,
    ((canonicalize Encode Decode data).1.1 = None
     ↔ (Encode data).2 ≠ None
       ∨ Forall writesNothing (tokensBeforeFault (Decode (Encode data).1)))
    ∧ ((Encode data).2 = None →
       Forall writesNothing (tokensBeforeFault (Decode (Encode data).1)) →
       canonicalize Encode Decode data = (None, EmptyString, None)).
Proof.
  intros data. unfold canonicalize.
  destruct (Encode data) as [buffer [e|]]; cbn [fst snd].
  - split; [|done]. split; [by left|done].
  - rewrite loop_tokensBeforeFault.
    assert (Hnil : ∀ b, Buffer_Bytes b = None ↔ b = EmptyString)
      by (by intros []).
    split.
    + rewrite Hnil. fold (rewriteTokens (tokensBeforeFault (Decode buffer))).
      unfold rewriteTokens. rewrite foldl_step_out_nil. cbn [out initial].
      split; [by intros [_ ?]; right|]. by intros [?|?].
    + intros _ Hall.
      pose proof (proj2 (foldl_step_out_nil _ initial) (conj eq_refl Hall)) as Ho.
      rewrite Ho. cbn [Buffer_Bytes]. do 2 f_equal.
      fold (rewriteTokens (tokensBeforeFault (Decode buffer))).
      by rewrite rewriteTokens_id, writesNothing_firstStart.
Qed.
End empty_output.

(** ** The prefix written when a namespace has several *)

Lemma Less_declarations d1 d2 :
  isDeclaration d1 → isDeclaration d2 →
  Less_attr d1 d2 = String.ltb (Local (Attr_Name d1)) (Local (Attr_Name d2)).
Proof.
  intros [Hl1 Hs1] [Hl2 Hs2]. unfold Less_attr, Less_names.
  rewrite (proj2 (String.eqb_neq _ _) Hl1), (proj2 (String.eqb_neq _ _) Hl2).
  by rewrite Hs1, Hs2.
Qed.

(** In an ascending slice the prefix recorded for a URI is the greatest
    among the prefixes declared for it. *)
Lemma foldl_recordPrefix_greatest l :
  ascending Less_attr l →
  ∀ uri p,
    foldl recordPrefix ∅ l !! uri = Some p →
    ∀ d, d ∈ l → isDeclaration d → Value d = uri →
         String.ltb p (Local (Attr_Name d)) = false.
Proof.
  unfold ascending.
  induction l as [|x l IH] using rev_ind; intros Hasc uri p Hp d Hd Hdecl Hv.
  - by apply elem_of_nil in Hd.
  - apply StronglySorted_app in Hasc as (Hlx & Hl & _).
    rewrite foldl_snoc in Hp.
    destruct (decide (isDeclaration x)) as [Hx|Hx].
    + rewrite recordPrefix_declaration in Hp by done.
      destruct (decide (Value x = uri)) as [Hxu|Hxu].
      * rewrite Hxu, lookup_insert_eq in Hp. injection Hp as <-.
        apply elem_of_app in Hd as [Hd|Hd%list_elem_of_singleton];
          [|subst d; apply ltb_irrefl].
        rewrite <- (Less_declarations x d) by done.
        apply Hlx; [done|by apply list_elem_of_singleton].
      * rewrite lookup_insert_ne in Hp by done.
        apply elem_of_app in Hd as [Hd|Hd%list_elem_of_singleton];
          [|by subst d].
        by apply (IH Hl uri).
    + rewrite recordPrefix_other in Hp by done.
      apply elem_of_app in Hd as [Hd|Hd%list_elem_of_singleton];
          [|by subst d].
      by apply (IH Hl uri).
Qed.

Section prefix_choice.
Context `{Sorter}.

(** When an element with at most one attribute named xmlns declares one
    or several prefixes for a namespace URI, [writeStartElement] writes an
    attribute in that namespace with one of these prefixes, the greatest
    of them in byte order. *)
Theorem greatest_declared_prefix_is_written :
  ∀ start w ns pre att post,
    length (xmlns_attrs (Start_Attr start)) ≤ 1 →
    sort_Sort (Start_Attr start) = pre ++ att :: post →
    isNamespaced att →
    (∃ d, d ∈ Start_Attr start ∧ isDeclaration d
          ∧ Value d = Space (Attr_Name att)) →
    ∃ p,
      (writeStartElement w start ns).1
      = w +:+ "<" +:+ tagName (Start_Name start)
          +:+ (if declaresNamespace ns (Space (Start_Name start))
               then xmlnsDecl (Space (Start_Name start)) else EmptyString)
          +:+ attrsText ∅ pre
          +:+ (" " +:+ p +:+ ":" +:+ Local (Attr_Name att)
                   +:+ "=" +:+ dq +:+ Value att +:+ dq)
          +:+ attrsText (prefixMap pre) post +:+ ">"
      ∧ (∃ d, d ∈ Start_Attr start ∧ isDeclaration d
              ∧ Value d = Space (Attr_Name att) ∧ Local (Attr_Name d) = p)
      ∧ (∀ d, d ∈ Start_Attr start → isDeclaration d →
              Value d = Space (Attr_Name att) →
              String.ltb p (Local (Attr_Name d)) = false).
Proof.
  intros start w ns pre att post Hx Hsort Hatt (d0 & Hd0 & Hdecl0 & Hv0).
  pose proof (declarations_precede _ _ _ _ Hx Hsort Hatt) as Hpost.
  assert (Hpre : ∀ d, d ∈ Start_Attr start → isDeclaration d → d ∈ pre).
  { intros d Hd Hdecl. rewrite <- sort_Sort_perm, Hsort in Hd.
    apply elem_of_app in Hd as [Hd|Hd]; [done|].
    apply elem_of_cons in Hd as [->|Hd].
    - destruct Hdecl as [_ Hs]. by destruct Hatt as (_ & _ & Hns).
    - rewrite Forall_forall in Hpost. by destruct (Hpost d Hd). }
  destruct (foldl_recordPrefix_is_Some pre ∅ (Space (Attr_Name att)))
    as [p Hp]; [right; exists d0; auto|].
  fold (prefixMap pre) in Hp. exists p. split_and!.
  - rewrite writeStartElement_text. cbn [fst]. rewrite Hsort.
    rewrite attrsText_app, attrsText_cons.
    rewrite writeAttr_namespaced, recordPrefix_namespaced by done.
    cbn [snd]. fold (prefixMap pre). rewrite Hp. cbn [default].
    by rewrite !append_assoc.
  - unfold prefixMap in Hp.
    apply foldl_recordPrefix_Some in Hp as [Hp|(d & Hd & ?)]; [done|].
    exists d. split; [|done].
    rewrite <- sort_Sort_perm, Hsort. apply elem_of_app. by left.
  - intros d Hd Hdecl Hv.
    pose proof (sort_Sort_ascending _ Hx) as Hasc. rewrite Hsort in Hasc.
    apply (foldl_recordPrefix_greatest pre) with (uri := Space (Attr_Name att));
      [by eapply StronglySorted_app_1_l|done|by apply Hpre|done..].
Qed.
End prefix_choice.

(** * The claims on concrete inputs *)

(** The lemmas below run [sort.Sort] as the insertion sort
    [insertion_Sorter]. *)

(** ** Counterexamples *)

(** C2, counterexample: two different attributes of one element that
    [Less] puts before each other, and one it puts before itself; sorting
    either arrangement of the two yields the other one. *)
Lemma Less_not_strict_on_two_xmlns :
  attr_default_decl ≠ attr_xmlns_xmlns
  ∧ Less_attr attr_default_decl attr_xmlns_xmlns = true
  ∧ Less_attr attr_xmlns_xmlns attr_default_decl = true
  ∧ Less_attr attr_default_decl attr_default_decl = true
  ∧ sort_insertion [attr_default_decl; attr_xmlns_xmlns]
    = [attr_xmlns_xmlns; attr_default_decl]
  ∧ sort_insertion [attr_xmlns_xmlns; attr_default_decl]
    = [attr_default_decl; attr_xmlns_xmlns].
Proof. split_and!; done. Qed.

(** C4, counterexample: the same two attributes in two arrangements give
    two different start tags. *)
Lemma duplicate_names_keep_arrival_order :
  [attr_a1; attr_a2] ≡ₚ [attr_a2; attr_a1]
  ∧ (writeStartElement EmptyString
       (mkStart (mkName "http://x" "e") [attr_a1; attr_a2]) []).1
    = "<e xmlns=" +:+ dq +:+ "http://x" +:+ dq
        +:+ " a=" +:+ dq +:+ "1" +:+ dq +:+ " a=" +:+ dq +:+ "2" +:+ dq +:+ ">"
  ∧ (writeStartElement EmptyString
       (mkStart (mkName "http://x" "e") [attr_a2; attr_a1]) []).1
    = "<e xmlns=" +:+ dq +:+ "http://x" +:+ dq
        +:+ " a=" +:+ dq +:+ "2" +:+ dq +:+ " a=" +:+ dq +:+ "1" +:+ dq +:+ ">"
  ∧ (writeStartElement EmptyString
       (mkStart (mkName "http://x" "e") [attr_a1; attr_a2]) []).1
    ≠ (writeStartElement EmptyString
         (mkStart (mkName "http://x" "e") [attr_a2; attr_a1]) []).1.
Proof. split_and!; [apply Permutation_swap|done..]. Qed.


(** C7, counterexample: the attribute [p:xmlns="v"] has the namespace
    component [u], declared on the same element, and is not written at
    all. *)
Lemma xmlns_named_attribute_is_skipped :
  (writeStartElement EmptyString
     (mkStart (mkName EmptyString "e") [attr_decl_p; attr_p_xmlns]) []).1
  = "<:e xmlns:p=" +:+ dq +:+ "u" +:+ dq +:+ ">".
Proof. reflexivity. Qed.

(** ** Witnesses *)

Lemma writeNameSapce_declares_once_witness :
  HasPrefix "http://a/ns" "http" = true
  ∧ out (rewriteTokens
           [TStartElement (mkStart (mkName "http://a/ns" "Root") [attr_a1]);
            TStartElement (mkStart (mkName "http://a/ns" "Kid") [])])
    = ("<" +:+ "Root" +:+ " xmlns=" +:+ dq +:+ "http://a/ns" +:+ dq
           +:+ attrsText ∅ (sort_Sort [attr_a1]) +:+ ">")
      +:+ ("<" +:+ "Kid" +:+ attrsText ∅ (sort_Sort []) +:+ ">").
Proof.
  split; [reflexivity|].
  apply (proj2 (proj2 (proj2 (proj2 writeNameSapce_declares_once)))).
  reflexivity.
Defined.

Lemma tags_render_namespace_as_prefix_witness :
  HasPrefix "ds" "http" = false
  ∧ out (step initial (TEndElement (mkName "ds" "Signature")))
    = out initial +:+ "</" +:+ "ds" +:+ ":" +:+ "Signature" +:+ ">".
Proof.
  split; [reflexivity|].
  apply (proj1 (proj2 tags_render_namespace_as_prefix)
           initial (mkName "ds" "Signature")).
  reflexivity.
Defined.

Lemma identifier_of_first_start_witness :
  firstStart [TCharData "x"; TStartElement (mkStart (mkName EmptyString "r") [attr_a1])]
  = Some (mkStart (mkName EmptyString "r") [attr_a1])
  ∧ id (rewriteTokens
          ([TCharData "x"; TStartElement (mkStart (mkName EmptyString "r") [attr_a1])]
           ++ [TStartElement (mkStart (mkName EmptyString "s")
                                [mkAttr (mkName EmptyString "Id") "late"])]))
    = id (rewriteTokens
            [TCharData "x"; TStartElement (mkStart (mkName EmptyString "r") [attr_a1])]).
Proof.
  split; [reflexivity|].
  eapply (proj1 (proj2 (proj2 identifier_of_first_start))).
  reflexivity.
Defined.

Lemma canonicalize_error_iff_encode_fails_witness :
  (encode_fails ()).2 = Some (xml_MarshalError "unsupported type")
  ∧ canonicalize encode_fails decode_cut ()
    = (None, EmptyString, Some (xml_MarshalError "unsupported type"))
  ∧ (encode_cut ()).2 = None
  ∧ out (rewriteTokens (tokensBeforeFault (decode_cut (encode_cut ()).1)))
    = "<:a>t"
  ∧ (canonicalize encode_cut decode_cut ()).1.1 = Some "<:a>t"
  ∧ (canonicalize encode_cut decode_cut ()).1.2 = EmptyString
  ∧ (canonicalize encode_cut decode_cut ()).2 = None.
Proof.
  pose proof (proj1 (proj2 (proj2 (canonicalize_error_iff_encode_fails
                                     encode_cut decode_cut)))
                () _ eq_refl eq_refl) as (Herr & Hid & Hbytes & _).
  split_and!; [reflexivity| |reflexivity|reflexivity| |exact Hid|exact Herr].
  - apply (proj1 (proj2 (canonicalize_error_iff_encode_fails
                           encode_fails decode_cut))).
    reflexivity.
  - apply Hbytes. discriminate.
Defined.


Lemma Less_asymmetric_iff_one_xmlns_witness :
  Local (Attr_Name attr_default_decl) = "xmlns"
  ∧ Local (Attr_Name attr_xmlns_xmlns) = "xmlns"
  ∧ Less_names (Attr_Name attr_default_decl) (Attr_Name attr_xmlns_xmlns) = true
  ∧ Less_names (Attr_Name attr_xmlns_xmlns) (Attr_Name attr_default_decl) = true.
Proof.
  split_and!; [reflexivity..| |].
  - apply (proj1 Less_asymmetric_iff_one_xmlns); reflexivity.
  - apply (proj1 Less_asymmetric_iff_one_xmlns); reflexivity.
Defined.

Lemma attributes_written_in_canonical_order_witness :
  length (xmlns_attrs [attr_p_k; attr_default_decl; attr_decl_p; attr_a1]) ≤ 1
  ∧ StronglySorted (λ a b, canonical_lt (Attr_Name b) (Attr_Name a) = false)
      (sort_Sort [attr_p_k; attr_default_decl; attr_decl_p; attr_a1]).
Proof.
  split; [vm_compute; lia|].
  apply (proj2 (proj2 (proj2 (proj2 attributes_written_in_canonical_order)))
           (mkStart (mkName EmptyString "e")
              [attr_p_k; attr_default_decl; attr_decl_p; attr_a1])).
  vm_compute. lia.
Defined.

Lemma output_independent_of_arrangement_witness :
  [attr_p_k; attr_decl_p] ≡ₚ [attr_decl_p; attr_p_k]
  ∧ NoDup (Attr_Name <$> [attr_p_k; attr_decl_p])
  ∧ length (xmlns_attrs [attr_p_k; attr_decl_p]) ≤ 1
  ∧ sort_Sort [attr_p_k; attr_decl_p] = sort_Sort [attr_decl_p; attr_p_k].
Proof.
  assert (Hnd : NoDup (Attr_Name <$> [attr_p_k; attr_decl_p]))
    by (apply (bool_decide_unpack _); vm_compute; exact I).
  split_and!; [apply Permutation_swap|exact Hnd|vm_compute; lia|].
  apply (proj1 (proj2 (proj2 (output_independent_of_arrangement
                               encode_cut decode_cut))));
    [apply Permutation_swap|exact Hnd|vm_compute; lia].
Defined.

Lemma namespaced_attribute_prefix_witness :
  sort_Sort [attr_p_k; attr_decl_p] = [attr_decl_p] ++ attr_p_k :: []
  ∧ isNamespaced attr_p_k
  ∧ (writeStartElement EmptyString
       (mkStart (mkName EmptyString "e") [attr_p_k; attr_decl_p]) []).1
    = "<:e xmlns:p=" +:+ dq +:+ "u" +:+ dq
        +:+ " p:k=" +:+ dq +:+ "v" +:+ dq +:+ ">".
Proof.
  assert (Hns : isNamespaced attr_p_k) by (split_and!; discriminate).
  assert (Hsort : sort_Sort [attr_p_k; attr_decl_p]
                  = [attr_decl_p] ++ attr_p_k :: []) by reflexivity.
  split_and!; [exact Hsort|exact Hns|].
  rewrite (proj1 (proj1 (proj2 namespaced_attribute_prefix)
                    (mkStart (mkName EmptyString "e") [attr_p_k; attr_decl_p])
                    EmptyString [] [attr_decl_p] attr_p_k [] Hsort Hns)).
  reflexivity.
Defined.

Lemma different_namespace_is_declared_again_witness :
  out (rewriteTokens
         [TStartElement (mkStart (mkName "http://a" "Root") []);
          TStartElement (mkStart (mkName "http://b" "Kid") [])])
  = ("<" +:+ "Root" +:+ " xmlns=" +:+ dq +:+ "http://a" +:+ dq
         +:+ attrsText ∅ (sort_Sort []) +:+ ">")
    +:+ ("<" +:+ "Kid" +:+ " xmlns=" +:+ dq +:+ "http://b" +:+ dq
           +:+ attrsText ∅ (sort_Sort []) +:+ ">").
Proof.
  apply different_namespace_is_declared_again; [reflexivity..|discriminate].
Defined.

Lemma output_only_grows_witness :
  rewriteTokens ([TCharData "a"] ++ [TComment "note"]) = rewriteTokens [TCharData "a"].
Proof.
  apply (proj2 (proj2 output_only_grows)). exact I.
Defined.

Lemma closed_element_restores_the_stack_witness :
  out (rewriteTokens
         (TStartElement (mkStart (mkName "http://a" "r") [])
          :: [TStartElement (mkStart (mkName "http://b" "c") []);
              TEndElement (mkName "http://b" "c")]
          ++ [TEndElement (mkName "http://a" "r");
              TStartElement (mkStart (mkName "http://b" "s") [])]))
  = out (rewriteTokens
           (TStartElement (mkStart (mkName "http://a" "r") [])
            :: [TStartElement (mkStart (mkName "http://b" "c") []);
                TEndElement (mkName "http://b" "c")]
            ++ [TEndElement (mkName "http://a" "r")]))
      +:+ "<" +:+ tagName (mkName "http://b" "s")
      +:+ (if declaresNamespace [] "http://b"
           then xmlnsDecl "http://b" else EmptyString)
      +:+ attrsText ∅ (sort_Sort []) +:+ ">".
Proof.
  apply (proj2 closed_element_restores_the_stack initial).
  apply (wellNested_element _ [] _ []); constructor.
Defined.

Lemma one_namespace_is_declared_once_witness :
  out (rewriteTokens
         (TStartElement (mkStart (mkName "http://a" "r") [])
          :: [TStartElement (mkStart (mkName "http://a" "c") []);
              TCharData "t"; TEndElement (mkName "http://a" "c");
              TEndElement (mkName "http://a" "r")]))
  = ("<" +:+ "r" +:+ " xmlns=" +:+ dq +:+ "http://a" +:+ dq
         +:+ attrsText ∅ (sort_Sort []) +:+ ">")
    +:+ plainTexts
          [TStartElement (mkStart (mkName "http://a" "c") []);
           TCharData "t"; TEndElement (mkName "http://a" "c");
           TEndElement (mkName "http://a" "r")].
Proof.
  apply one_namespace_is_declared_once; [reflexivity| |reflexivity].
  repeat constructor.
Defined.

Lemma text_and_values_are_written_unescaped_witness :
  writeStartElement EmptyString
    (mkStart (mkName EmptyString "e")
       [mkAttr (mkName EmptyString "a")
          ("1" +:+ dq +:+ " " +:+ "b" +:+ "=" +:+ dq +:+ "2")]) []
  = writeStartElement EmptyString
      (mkStart (mkName EmptyString "e")
         [mkAttr (mkName EmptyString "a") "1";
          mkAttr (mkName EmptyString "b") "2"]) [].
Proof.
  apply (proj2 text_and_values_are_written_unescaped);
    [discriminate|discriminate|reflexivity].
Defined.

Lemma nil_bytes_iff_nothing_written_witness :
  (encode_comment ()).2 = None
  ∧ Forall writesNothing
      (tokensBeforeFault (decode_comment (encode_comment ()).1))
  ∧ canonicalize encode_comment decode_comment ()
    = (None, EmptyString, None).
Proof.
  assert (Hall : Forall writesNothing
            (tokensBeforeFault (decode_comment (encode_comment ()).1)))
    by (repeat constructor).
  split_and!; [reflexivity|exact Hall|].
  apply (proj2 (nil_bytes_iff_nothing_written encode_comment decode_comment ()));
    [reflexivity|exact Hall].
Defined.

Lemma greatest_declared_prefix_is_written_witness :
  sort_Sort [attr_p_k; attr_decl_q; attr_decl_p]
  = [attr_decl_p; attr_decl_q] ++ attr_p_k :: []
  ∧ ∃ p,
      (writeStartElement EmptyString
         (mkStart (mkName EmptyString "e")
            [attr_p_k; attr_decl_q; attr_decl_p]) []).1
      = EmptyString +:+ "<" +:+ tagName (mkName EmptyString "e")
          +:+ (if declaresNamespace [] EmptyString
               then xmlnsDecl EmptyString else EmptyString)
          +:+ attrsText ∅ [attr_decl_p; attr_decl_q]
          +:+ (" " +:+ p +:+ ":" +:+ "k" +:+ "=" +:+ dq +:+ "v" +:+ dq)
          +:+ attrsText (prefixMap [attr_decl_p; attr_decl_q]) [] +:+ ">"
      ∧ (∃ d, d ∈ [attr_p_k; attr_decl_q; attr_decl_p] ∧ isDeclaration d
              ∧ Value d = "u" ∧ Local (Attr_Name d) = p)
      ∧ (∀ d, d ∈ [attr_p_k; attr_decl_q; attr_decl_p] → isDeclaration d →
              Value d = "u" → String.ltb p (Local (Attr_Name d)) = false).
Proof.
  assert (Hsort : sort_Sort [attr_p_k; attr_decl_q; attr_decl_p]
                  = [attr_decl_p; attr_decl_q] ++ attr_p_k :: [])
    by reflexivity.
  split; [exact Hsort|].
  apply (greatest_declared_prefix_is_written
           (mkStart (mkName EmptyString "e")
              [attr_p_k; attr_decl_q; attr_decl_p])
           EmptyString [] [attr_decl_p; attr_decl_q] attr_p_k []
           ltac:(vm_compute; lia) Hsort
           ltac:(split_and!; discriminate)).
  exists attr_decl_q. split; [|split; [split|]].
  - apply (bool_decide_unpack _). vm_compute. exact I.
  - discriminate.
  - reflexivity.
  - reflexivity.
Defined.

Lemma stack_holds_the_open_namespaces_witness :
  namespaces
    (rewriteTokens
       [TStartElement (mkStart (mkName "http://a" "r") []);
        TStartElement (mkStart (mkName EmptyString "c") []);
        TCharData "t";
        TEndElement (mkName EmptyString "c")])
  = Space <$> [mkName "http://a" "r"].
Proof.
  apply (proj1 (proj1 stack_holds_the_open_namespaces
                  [TStartElement (mkStart (mkName "http://a" "r") []);
                   TStartElement (mkStart (mkName EmptyString "c") []);
                   TCharData "t";
                   TEndElement (mkName EmptyString "c")]
                  [] [mkName "http://a" "r"] initial eq_refl eq_refl)).
Defined.
